(** * iataplaces: the airport index keyed by IATA code

    A shallow embedding of [iataplaces.go]: the CSV loader [LoadFromReader],
    the store lookup [Store.LookupIATA], the byte-wise [toUpperASCII] and the
    lazily loaded default store.

    Go strings are byte sequences; they are embedded as [string], whose
    characters are the 256 byte values.  The [csv.Reader] is embedded by what
    the loader observes of it: the results of its successive [Read] calls. *)

From Stdlib Require Import ZArith NArith Ascii String List Bool Lia.
From Stdlib Require Import Floats.SpecFloat.
From stdpp Require Import base option list strings gmap fin_maps.

Local Open Scope N_scope.

(** ** Bytes *)

Module Octet.

(** The numeric value of a byte. *)
Definition val (c : ascii) : N := N_of_ascii c.

(** [c < utf8.RuneSelf]: the byte is a whole ASCII character. *)
Definition isASCII (c : ascii) : bool := val c <? 128.

Definition isLower (c : ascii) : bool := (97 <=? val c) && (val c <=? 122).
Definition isUpper (c : ascii) : bool := (65 <=? val c) && (val c <=? 90).

(** [c - 'a' + 'A'] on a [uint8], for any byte; the loops below apply it
    to lower-case letters only. *)
Definition upper (c : ascii) : ascii :=
  if isLower c then ascii_of_N ((val c + 256 - 97 + 65) mod 256) else c.

(** [c + 'a' - 'A'] on upper-case letters. *)
Definition lower (c : ascii) : ascii :=
  if isUpper c then ascii_of_N ((val c + 97 - 65) mod 256) else c.

(** The table [asciiSpace] of package [strings]: tab, line feed, vertical
    tab, form feed, carriage return and space. *)
Definition isSpace (c : ascii) : bool :=
  ((9 <=? val c) && (val c <=? 13)) || (val c =? 32).

Definition isDigit (c : ascii) : bool := (48 <=? val c) && (val c <=? 57).

End Octet.

(** Mapping a byte function over a string ([b[i] = f(s[i])]). *)
Fixpoint mapBytes (f : ascii → ascii) (s : string) : string :=
  match s with
  | EmptyString => EmptyString
  | String c r => String (f c) (mapBytes f r)
  end.

Fixpoint allBytes (p : ascii → bool) (s : string) : bool :=
  match s with
  | EmptyString => true
  | String c r => p c && allBytes p r
  end.

Fixpoint anyByte (p : ascii → bool) (s : string) : bool :=
  match s with
  | EmptyString => false
  | String c r => p c || anyByte p r
  end.

(** ** The parts of Go's library the loader calls

    [strings.TrimSpace], the ASCII paths of [strings.ToUpper] and
    [strings.ToLower], and [strconv.ParseInt] are embedded in full.  What
    needs Go's Unicode case tables, its float parser or its time parser is a
    field of [GoLib]. *)

Inductive NumError := ErrSyntax | ErrRange.

Definition float64 := spec_float.

(** [0.0], the value Go returns with a syntax error. *)
Definition float64_zero : float64 := S754_zero false.

Class GoLib : Type := {
  (** [strings.Map(unicode.ToUpper, s)], the path [strings.ToUpper] takes
      when [s] has a byte outside ASCII. *)
  mapToUpper : string → string;
  (** [strings.Map(unicode.ToLower, s)], likewise for [strings.ToLower]. *)
  mapToLower : string → string;
  (** [strconv.ParseFloat(s, 64)]: the value and the error kind, [None] for
      a nil error. *)
  ParseFloat : string → float64 * option NumError;
  (** [time.Time] and [time.Parse(time.RFC3339, s)], [None] on an error. *)
  Time : Type;
  parseRFC3339 : string → option Time
}.

Module GoStrings.

(** White space runes beyond ASCII, by their UTF-8 encodings: U+0085 and
    U+00A0 on two bytes; U+1680, U+2000 to U+200A, U+2028, U+2029, U+202F,
    U+205F and U+3000 on three. *)
Definition space2 (c0 c1 : ascii) : bool :=
  (Octet.val c0 =? 194) && ((Octet.val c1 =? 133) || (Octet.val c1 =? 160)).

Definition space3 (c0 c1 c2 : ascii) : bool :=
  ((Octet.val c0 =? 225) && (Octet.val c1 =? 154) && (Octet.val c2 =? 128))
  || ((Octet.val c0 =? 226) && (Octet.val c1 =? 128)
      && (((128 <=? Octet.val c2) && (Octet.val c2 <=? 138))
          || (Octet.val c2 =? 168) || (Octet.val c2 =? 169)
          || (Octet.val c2 =? 175)))
  || ((Octet.val c0 =? 226) && (Octet.val c1 =? 129) && (Octet.val c2 =? 159))
  || ((Octet.val c0 =? 227) && (Octet.val c1 =? 128) && (Octet.val c2 =? 128)).

(** Drops the white space runes at the head of a byte list.  [sp2] and
    [sp3] recognise the multi-byte ones, so that the same function serves
    from the right on the reversed list. *)
Fixpoint dropSpaces (sp2 : ascii → ascii → bool)
    (sp3 : ascii → ascii → ascii → bool) (l : list ascii) : list ascii :=
  match l with
  | [] => []
  | c0 :: r0 =>
    if Octet.isSpace c0 then dropSpaces sp2 sp3 r0
    else match r0 with
    | [] => l
    | c1 :: r1 =>
      if sp2 c0 c1 then dropSpaces sp2 sp3 r1
      else match r1 with
      | [] => l
      | c2 :: r2 => if sp3 c0 c1 c2 then dropSpaces sp2 sp3 r2 else l
      end
    end
  end.

Definition trimLeft (l : list ascii) : list ascii :=
  dropSpaces space2 space3 l.

Definition trimRight (l : list ascii) : list ascii :=
  rev (dropSpaces (λ c1 c0, space2 c0 c1) (λ c2 c1 c0, space3 c0 c1 c2)
         (rev l)).

(** [strings.TrimSpace]: the leading, then the trailing white space runes
    are removed. *)
Definition TrimSpace (s : string) : string :=
  string_of_list_ascii (trimRight (trimLeft (list_ascii_of_string s))).

(** [strings.ToUpper]: an ASCII string without lower-case letters is
    returned as it is, another ASCII string is mapped byte by byte, and
    any other string goes through the Unicode tables. *)
Definition ToUpper `{GoLib} (s : string) : string :=
  if allBytes Octet.isASCII s then
    if anyByte Octet.isLower s then mapBytes Octet.upper s else s
  else mapToUpper s.

(** [strings.ToLower], the mirror image. *)
Definition ToLower `{GoLib} (s : string) : string :=
  if allBytes Octet.isASCII s then
    if anyByte Octet.isUpper s then mapBytes Octet.lower s else s
  else mapToLower s.

End GoStrings.

Module GoStrconv.

Local Open Scope Z_scope.

Definition maxUint64 : Z := 2 ^ 64 - 1.

(** The loop of [strconv.ParseUint(s, 10, 64)] over the digits of [s],
    with [n] the value read so far. *)
Fixpoint parseUintLoop (n : Z) (s : string) : Z * option NumError :=
  match s with
  | EmptyString => (n, None)
  | String c r =>
    if Octet.isDigit c then
      let d := Z.of_N (Octet.val c) - 48 in
      if maxUint64 / 10 + 1 <=? n then (maxUint64, Some ErrRange)
      else
        let n1 := n * 10 + d in
        if maxUint64 <? n1 then (maxUint64, Some ErrRange)
        else parseUintLoop n1 r
    else (0, Some ErrSyntax)
  end.

Definition ParseUint (s : string) : Z * option NumError :=
  match s with
  | EmptyString => (0, Some ErrSyntax)
  | _ => parseUintLoop 0 s
  end.

(** [strconv.ParseInt(s, 10, 64)]. *)
Definition ParseInt (s : string) : Z * option NumError :=
  match s with
  | EmptyString => (0, Some ErrSyntax)
  | String c r =>
    let neg := (Octet.val c =? 45)%N in
    let digits := if (Octet.val c =? 43)%N || neg then r else s in
    let '(un, err) := ParseUint digits in
    match err with
    | Some ErrSyntax => (0, err)
    | _ =>
      let cutoff := 2 ^ 63 in
      if negb neg && (cutoff <=? un) then (cutoff - 1, Some ErrRange)
      else if neg && (cutoff <? un) then (- cutoff, Some ErrRange)
      else (if neg then - un else un, None)
    end
  end.

End GoStrconv.

(** ** The records of [iataplaces.go] *)

(** [Airport]: one row of the airports CSV.  The three pointer fields are
    [nil] or point to a value of their own: [None] or [Some]. *)
Record Airport `{GoLib} := {
  ID : Z;
  Ident : string;
  Type_ : string;
  Name : string;
  LatitudeDeg : float64;
  LongitudeDeg : float64;
  ElevationFt : option Z;
  Continent : string;
  CountryName : string;
  IsoCountry : string;
  RegionName : string;
  IsoRegion : string;
  LocalRegion : string;
  Municipality : string;
  Scheduled : bool;
  GPSCode : string;
  ICAOCode : string;
  IATACode : string;
  LocalCode : string;
  HomeLink : string;
  WikipediaLink : string;
  Keywords : string;
  Score : option Z;
  LastUpdateTime : option Time
}.

(** [Store]: the airports by IATA code.  Reading a [nil] Go map is reading
    an empty one, so the zero [Store] is the store of the empty map. *)
Record Store `{GoLib} := { byIATA : gmap string Airport }.

(** ** Lookup *)

(** [toUpperASCII]: each byte from ['a'] to ['z'] is replaced by
    [c - 'a' + 'A'], every other byte is copied. *)
Definition toUpperASCII (s : string) : string := mapBytes Octet.upper s.

(** The method [LookupIATA] of a store; its receiver is a pointer, [None]
    when [nil].
    The result is the pair Go returns: the airport pointer and [ok]. *)
Definition Store_LookupIATA `{GoLib} (s : option Store) (code : string)
    : option Airport * bool :=
  match s with
  | None => (None, false)
  | Some st =>
    match code with
    | EmptyString => (None, false)
    | _ =>
      let upper := toUpperASCII code in
      match byIATA st !! upper with
      | Some a => (Some a, true)
      | None => (None, false)
      end
    end
  end.

(** ** Errors and the CSV reader *)

(** What a [Read] of the [csv.Reader] can fail with, end of input apart: a
    malformed record or a failure of the underlying reader. *)
Inductive ReadFailure :=
  | ParseError (line column : nat)
  | ReaderFailure (msg : string).

Inductive error :=
  | io_EOF
  | ReadFailed (f : ReadFailure)
  | OpenFailed (path : string)
  | Errorf (prefix : string) (cause : error).

(** One [reader.Read()] before the end of the input.  The loader sets
    [FieldsPerRecord = -1], so a record of any length is a success. *)
Inductive ReadResult :=
  | Record_ (rec : list string)
  | Failure (f : ReadFailure).

(** The reader is the list of the results its [Read] calls give in turn;
    past the end of the list [Read] returns [io.EOF]. *)
Definition Reader := list ReadResult.

(** ** The loader *)

(** The loop that fills [colIndex] from the header; a column name that
    comes twice keeps its last position. *)
Fixpoint buildColIndex (i : nat) (header : list string)
    (colIndex : gmap string nat) : gmap string nat :=
  match header with
  | [] => colIndex
  | col :: rest =>
    buildColIndex (S i) rest (<[GoStrings.TrimSpace col := i]> colIndex)
  end.

(** The closure [get] of [LoadFromReader]. *)
Definition get (colIndex : gmap string nat) (rec : list string)
    (col : string) : string :=
  match colIndex !! col with
  | None => EmptyString
  | Some idx =>
    match rec !! idx with
    | None => EmptyString
    | Some cell => GoStrings.TrimSpace cell
    end
  end.

(** An optional integer cell ([elevation_ft], [score]): a pointer to the
    value when the cell is not empty and [ParseInt] has no error. *)
Definition optInt (cell : string) : option Z :=
  match cell with
  | EmptyString => None
  | _ =>
    match GoStrconv.ParseInt cell with
    | (v, None) => Some v
    | (_, Some _) => None
    end
  end.

(** The body of the [for] loop up to the [Airport] literal, for one record
    that was read: [None] where the source has [continue], the airport
    otherwise. *)
Definition parseRow `{GoLib} (colIndex : gmap string nat)
    (rec : list string) : option Airport :=
  let get := get colIndex in
  let idStr := get rec "id" in
  match idStr with
  | EmptyString => None
  | _ =>
    match GoStrconv.ParseInt idStr with
    | (_, Some _) => None
    | (id, None) =>
      let lat := fst (ParseFloat (get rec "latitude_deg")) in
      let lon := fst (ParseFloat (get rec "longitude_deg")) in
      let elev := optInt (get rec "elevation_ft") in
      let score := optInt (get rec "score") in
      let lastUpdated :=
        match get rec "last_updated" with
        | EmptyString => None
        | lu => parseRFC3339 lu
        end in
      let sched :=
        let ss := GoStrings.ToLower (get rec "scheduled_service") in
        if String.eqb ss "1" || String.eqb ss "yes" || String.eqb ss "true"
        then true else false in
      let iata :=
        GoStrings.ToUpper (GoStrings.TrimSpace (get rec "iata_code")) in
      match iata with
      | EmptyString => None
      | _ =>
        Some {|
          ID := id;
          Ident := get rec "ident";
          Type_ := get rec "type";
          Name := get rec "name";
          LatitudeDeg := lat;
          LongitudeDeg := lon;
          ElevationFt := elev;
          Continent := get rec "continent";
          CountryName := get rec "country_name";
          IsoCountry := get rec "iso_country";
          RegionName := get rec "region_name";
          IsoRegion := get rec "iso_region";
          LocalRegion := get rec "local_region";
          Municipality := get rec "municipality";
          Scheduled := sched;
          GPSCode := get rec "gps_code";
          ICAOCode := get rec "icao_code";
          IATACode := iata;
          LocalCode := get rec "local_code";
          HomeLink := get rec "home_link";
          WikipediaLink := get rec "wikipedia_link";
          Keywords := get rec "keywords";
          Score := score;
          LastUpdateTime := lastUpdated
        |}
      end
    end
  end.

(** The end of the loop body: the airport is stored under its code unless
    the code has an entry already. *)
Definition insertFirst `{GoLib} (byIATA : gmap string Airport)
    (airport : Airport) : gmap string Airport :=
  let iata := IATACode airport in
  match byIATA !! iata with
  | Some _ => byIATA
  | None => <[iata := airport]> byIATA
  end.

(** The whole loop body for one record that was read. *)
Definition loopBody `{GoLib} (colIndex : gmap string nat)
    (byIATA : gmap string Airport) (rec : list string)
    : gmap string Airport :=
  match parseRow colIndex rec with
  | None => byIATA
  | Some airport => insertFirst byIATA airport
  end.

(** The [for] loop: a record goes through [loopBody], [io.EOF] ends the
    loop with the store, any other error ends the load. *)
Fixpoint readLoop `{GoLib} (colIndex : gmap string nat)
    (byIATA : gmap string Airport) (reader : Reader) : Store + error :=
  match reader with
  | [] => inl {| byIATA := byIATA |}
  | Failure f :: _ => inr (Errorf "read record" (ReadFailed f))
  | Record_ rec :: rest => readLoop colIndex (loopBody colIndex byIATA rec) rest
  end.

(** [LoadFromReader]. *)
Definition LoadFromReader `{GoLib} (reader : Reader) : Store + error :=
  match reader with
  | [] => inr (Errorf "read header" io_EOF)
  | Failure f :: _ => inr (Errorf "read header" (ReadFailed f))
  | Record_ header :: rest => readLoop (buildColIndex 0 header ∅) ∅ rest
  end.

(** ** The default store *)

(** What the process sees of its surroundings: the environment variable
    (the empty string when it is not set, as [os.Getenv] returns it) and the
    files, each by the reads a CSV reader over it gives; [None] when
    [os.Open] fails. *)
Record World := {
  AIRPORTS_CSV_PATH : string;
  openFile : string → option Reader
}.

Definition defaultCSVPath (w : World) : string :=
  match AIRPORTS_CSV_PATH w with
  | EmptyString => "data/airports-latest.csv"
  | p => p
  end.

(** [LoadFromFile]. *)
Definition LoadFromFile `{GoLib} (w : World) (path : string)
    : Store + error :=
  match openFile w path with
  | None => inr (Errorf "open airports csv" (OpenFailed path))
  | Some f => LoadFromReader f
  end.

(** The package variables [defaultStore], [loadOnce] (whether its function
    has run) and [loadErr]. *)
Record Globals `{GoLib} := {
  defaultStore : option Store;
  loadOnce : bool;
  loadErr : option error
}.

Definition initialGlobals `{GoLib} : Globals :=
  {| defaultStore := None; loadOnce := false; loadErr := None |}.

(** [ensureDefaultStore]: the new package variables and the pair returned. *)
Definition ensureDefaultStore `{GoLib} (w : World) (g : Globals)
    : Globals * (option Store * option error) :=
  let g' :=
    if loadOnce g then g
    else
      let path := defaultCSVPath w in
      match LoadFromFile w path with
      | inl st =>
        {| defaultStore := Some st; loadOnce := true; loadErr := loadErr g |}
      | inr err =>
        {| defaultStore := None; loadOnce := true;
           loadErr := Some (Errorf
             ("iataplaces: failed to load CSV from " +:+ path) err) |}
      end in
  (g', (defaultStore g', loadErr g')).

(** The package function [LookupIATA]. *)
Definition LookupIATA `{GoLib} (w : World) (g : Globals) (code : string)
    : Globals * (option Airport * bool) :=
  let '(g', (store, err)) := ensureDefaultStore w g in
  match err with
  | Some _ => (g', (None, false))
  | None => (g', Store_LookupIATA store code)
  end.

(** A sequence of [LookupIATA] calls, each in the surroundings of its time:
    the results in order and the package variables at the end. *)
Fixpoint lookups `{GoLib} (g : Globals) (calls : list (World * string))
    : list (option Airport * bool) * Globals :=
  match calls with
  | [] => ([], g)
  | (w, code) :: rest =>
    let '(g', r) := LookupIATA w g code in
    let '(rs, g'') := lookups g' rest in
    (r :: rs, g'')
  end.

(** ** A library instance to run the loader on

    The theorems below hold for every [GoLib]; [RefLib.lib] is the instance
    they are run on.  It maps the ASCII letters of a string outside ASCII
    and leaves its other bytes (what Go does when the other runes have no
    case), reads decimal floats with correct rounding (not the hexadecimal
    form, nor digit separators), and keeps the text of a date-time of the
    RFC 3339 shape. *)

Module RefLib.

Local Open Scope Z_scope.

(** The digits at the head of [s]: their value after [acc], how many
    they are after [count], and what follows them. *)
Fixpoint readDigits (s : string) (acc count : Z) : Z * Z * string :=
  match s with
  | String c r =>
    if Octet.isDigit c
    then readDigits r (acc * 10 + (Z.of_N (Octet.val c) - 48)) (count + 1)
    else (acc, count, s)
  | EmptyString => (acc, count, s)
  end.

Definition withRange (f : float64) : float64 * option NumError :=
  match f with
  | S754_infinity _ => (f, Some ErrRange)
  | _ => (f, None)
  end.

(** The binary64 nearest to [d * 10 ^ dp], ties to even. *)
Definition decimalFloat (neg : bool) (d dp : Z)
    : float64 * option NumError :=
  match d with
  | Zpos m =>
    if 400 <? dp then (S754_infinity neg, Some ErrRange)
    else if (dp <? 0) && (Z.log2 d + 1 + 3 * dp <? -1100)
    then (S754_zero neg, None)
    else if 0 <=? dp then
      match d * 10 ^ dp with
      | Zpos v => withRange (binary_round 53 1024 neg v 0)
      | _ => (S754_zero neg, None)
      end
    else
      let '(q, e, loc) := SFdiv_core_binary 53 1024 d 0 (10 ^ (- dp)) 0 in
      withRange (binary_round_aux 53 1024 neg q e loc)
  | _ => (S754_zero neg, None)
  end.

Definition syntaxError : float64 * option NumError :=
  (float64_zero, Some ErrSyntax).

(** The exponent part, after the mantissa of value [d] with [nfrac]
    digits behind the point. *)
Definition readExponent (neg : bool) (d nfrac : Z) (s : string)
    : float64 * option NumError :=
  match s with
  | EmptyString => decimalFloat neg d (- nfrac)
  | String c r =>
    if (Octet.val c =? 101)%N || (Octet.val c =? 69)%N then
      let '(eneg, digits) :=
        match r with
        | String c' r' =>
          if (Octet.val c' =? 45)%N then (true, r')
          else if (Octet.val c' =? 43)%N then (false, r')
          else (false, r)
        | EmptyString => (false, r)
        end in
      match readDigits digits 0 0 with
      | (e, n, EmptyString) =>
        if n =? 0 then syntaxError
        else decimalFloat neg d ((if eneg then - e else e) - nfrac)
      | _ => syntaxError
      end
    else syntaxError
  end.

Definition readMantissa (neg : bool) (s : string)
    : float64 * option NumError :=
  let '(d1, n1, rest) := readDigits s 0 0 in
  match rest with
  | String c r =>
    if (Octet.val c =? 46)%N then
      let '(d, n, rest') := readDigits r d1 n1 in
      if n =? 0 then syntaxError else readExponent neg d (n - n1) rest'
    else if n1 =? 0 then syntaxError else readExponent neg d1 0 rest
  | EmptyString =>
    if n1 =? 0 then syntaxError else decimalFloat neg d1 0
  end.

Definition refParseFloat (s : string) : float64 * option NumError :=
  match s with
  | EmptyString => syntaxError
  | String c r =>
    let neg := (Octet.val c =? 45)%N in
    let signed := (Octet.val c =? 43)%N || neg in
    let body := if signed then r else s in
    let low := mapBytes Octet.lower body in
    if String.eqb low "inf" || String.eqb low "infinity"
    then (S754_infinity neg, None)
    else if negb signed && String.eqb low "nan" then (S754_nan, None)
    else readMantissa neg body
  end.

(** [layout] against the head of [s]: a ['d'] of the layout stands for a
    digit, any other byte for itself.  What follows the match. *)
Fixpoint matchLayout (layout s : string) : option string :=
  match layout with
  | EmptyString => Some s
  | String l layout' =>
    match s with
    | EmptyString => None
    | String c r =>
      if (if (Octet.val l =? 100)%N then Octet.isDigit c
          else (Octet.val l =? Octet.val c)%N)
      then matchLayout layout' r else None
    end
  end.

Definition zoneShape (s : string) : bool :=
  String.eqb s "Z"
  || bool_decide (matchLayout "+dd:dd" s = Some EmptyString)
  || bool_decide (matchLayout "-dd:dd" s = Some EmptyString).

Definition refParseRFC3339 (s : string) : option string :=
  match matchLayout "dddd-dd-ddTdd:dd:dd" s with
  | Some (String c r as zone) =>
    if (Octet.val c =? 46)%N then
      match readDigits r 0 0 with
      | (_, n, zone') =>
        if negb (n =? 0) && zoneShape zone' then Some s else None
      end
    else if zoneShape zone then Some s else None
  | _ => None
  end.

#[export] Instance lib : GoLib := {|
  mapToUpper := mapBytes Octet.upper;
  mapToLower := mapBytes Octet.lower;
  ParseFloat := refParseFloat;
  Time := string;
  parseRFC3339 := refParseRFC3339
|}.

End RefLib.

(** A float that comes with [ErrSyntax] is the one of [syntaxError]. *)
Definition syntaxOrValue (r : float64 * option NumError) : Prop :=
  r = RefLib.syntaxError ∨ snd r ≠ Some ErrSyntax.

(** A float that comes with [ErrRange] is an infinity. *)
Definition rangeIsInfinity (r : float64 * option NumError) : Prop :=
  snd r = Some ErrRange → ∃ neg, fst r = S754_infinity neg.

(** ** Sample inputs *)

Module Sample.

Definition zeroAirport `{GoLib} : Airport := {|
  ID := 0; Ident := ""; Type_ := ""; Name := "";
  LatitudeDeg := float64_zero; LongitudeDeg := float64_zero;
  ElevationFt := None; Continent := ""; CountryName := "";
  IsoCountry := ""; RegionName := ""; IsoRegion := ""; LocalRegion := "";
  Municipality := ""; Scheduled := false; GPSCode := ""; ICAOCode := "";
  IATACode := ""; LocalCode := ""; HomeLink := ""; WikipediaLink := "";
  Keywords := ""; Score := None; LastUpdateTime := None
|}.

(** The airport the loader makes of a record under a header, on
    [RefLib.lib]; [zeroAirport] when it makes none. *)
Definition airportOf (header rec : list string) : @Airport RefLib.lib :=
  default zeroAirport
    (@parseRow RefLib.lib (buildColIndex 0 header ∅) rec).

Definition idCode : list string := ["id"; "iata_code"].

(** The airport of the row [1,AAA]. *)
Definition airportAAA : @Airport RefLib.lib :=
  Eval vm_compute in airportOf idCode ["1"; "AAA"].

(** The CSV of one airport, [jfk] in lower case. *)
Definition nameHeader : list string := ["id"; "iata_code"; "name"].
Definition rowJFK : list string := ["1"; "jfk"; "John F Kennedy"].
Definition airportJFK : @Airport RefLib.lib :=
  Eval vm_compute in airportOf nameHeader rowJFK.


(** A row with the elevation 0 and no score. *)
Definition numHeader : list string :=
  ["id"; "iata_code"; "elevation_ft"; "score"].
Definition rowZero : list string := ["1"; "AAA"; "0"; ""].
Definition airportZero : @Airport RefLib.lib :=
  Eval vm_compute in airportOf numHeader rowZero.

(** A row with a latitude that is no number and no longitude. *)
Definition geoHeader : list string :=
  ["id"; "iata_code"; "latitude_deg"; "longitude_deg"].
Definition rowGeo : list string := ["1"; "AAA"; "north"].

(** A row with a latitude that is no number and a longitude beyond the
    float64 range, and a row with such a latitude. *)
Definition rowFar : list string := ["2"; "BBB"; "north"; "1e999"].
Definition rowHigh : list string := ["1"; "AAA"; "1e999"].

(** Surroundings without any file. *)
Definition noFiles : World :=
  {| AIRPORTS_CSV_PATH := EmptyString; openFile := λ _, None |}.

End Sample.

(** ** The vocabulary of the specification *)

(** [c'] is [c] or the same ASCII letter in the other case. *)
Definition caseOf (c c' : ascii) : bool :=
  (Octet.val c =? Octet.val c')
  || (Octet.isUpper c && (Octet.val c' =? Octet.val c + 32))
  || (Octet.isLower c && (Octet.val c' + 32 =? Octet.val c)).

(** Two strings that differ in the case of ASCII letters only. *)
Fixpoint caseVariant (s t : string) : bool :=
  match s, t with
  | EmptyString, EmptyString => true
  | String c s', String c' t' => caseOf c c' && caseVariant s' t'
  | _, _ => false
  end.

(** The truthy tokens of [scheduled_service]. *)
Definition truthy : list string := ["1"; "yes"; "true"].

(** A decimal integer literal: an optional sign and one digit or more. *)
Definition isDecimalInt (s : string) : bool :=
  match s with
  | EmptyString => false
  | String c r =>
    let body :=
      if (Octet.val c =? 43) || (Octet.val c =? 45) then r else s in
    match body with
    | EmptyString => false
    | _ => allBytes Octet.isDigit body
    end
  end.

(** What an optional integer field is to its trimmed cell: absent for an
    empty cell, 0 for the cell "0", absent for a cell that is not a decimal
    integer or that [ParseInt] refuses, and never there but as the parsed
    cell. *)
Definition optionalField (cell : string) (field : option Z) : Prop :=
  (cell = EmptyString → field = None)
  ∧ (cell = "0" → field = Some 0%Z)
  ∧ (cell ≠ EmptyString → isDecimalInt cell = false → field = None)
  ∧ (snd (GoStrconv.ParseInt cell) ≠ None → field = None)
  ∧ (∀ v, field = Some v →
          cell ≠ EmptyString ∧ GoStrconv.ParseInt cell = (v, None)).

(** What a coordinate is to its trimmed cell: the value [ParseFloat]
    returns for it, error or not.  That is [0.0] for an empty cell and for a
    cell that is not a number, and an infinity for a number beyond the
    float64 range. *)
Definition coordinateField `{GoLib} (cell : string) (v : float64) : Prop :=
  v = fst (ParseFloat cell)
  ∧ (cell = EmptyString → v = float64_zero)
  ∧ (snd (ParseFloat cell) = Some ErrSyntax → v = float64_zero)
  ∧ (snd (ParseFloat cell) = Some ErrRange → ∃ neg, v = S754_infinity neg).

(** A coordinate that is [0.0] whenever its trimmed cell is empty or
    [ParseFloat] returns an error for it, of either kind. *)
Definition zeroOnParseFailure `{GoLib} (cell : string) (v : float64)
    : Prop :=
  cell = EmptyString ∨ snd (ParseFloat cell) ≠ None → v = float64_zero.

(** The cell of column [col] in a record as the reader gave it: [None] when
    the header has no such column or the record is too short. *)
Definition rawCell (colIndex : gmap string nat) (rec : list string)
    (col : string) : option string :=
  match colIndex !! col with
  | None => None
  | Some idx => rec !! idx
  end.

(** What a coordinate is to the cell the reader gave: [0.0] when there is
    no cell, and what [coordinateField] says of the cell once trimmed when
    there is one. *)
Definition coordinateOf `{GoLib} (raw : option string) (v : float64)
    : Prop :=
  match raw with
  | None => v = float64_zero
  | Some cell => coordinateField (GoStrings.TrimSpace cell) v
  end.

(** A record whose [id] cell is missing, empty once trimmed, or refused by
    [ParseInt]. *)
Definition badId (colIndex : gmap string nat) (rec : list string) : Prop :=
  match rawCell colIndex rec "id" with
  | None => True
  | Some cell =>
    GoStrings.TrimSpace cell = EmptyString
    ∨ snd (GoStrconv.ParseInt (GoStrings.TrimSpace cell)) ≠ None
  end.

(** The IATA code of a record: its [iata_code] cell trimmed and in upper
    case, the empty string when the cell is missing. *)
Definition normalizedIATA `{GoLib} (colIndex : gmap string nat)
    (rec : list string) : string :=
  match rawCell colIndex rec "iata_code" with
  | None => EmptyString
  | Some cell => GoStrings.ToUpper (GoStrings.TrimSpace cell)
  end.

(** The airport of the first record of [rows] that the loader accepts
    with the code [k]. *)
Fixpoint firstAccepted `{GoLib} (colIndex : gmap string nat) (k : string)
    (rows : list (list string)) : option Airport :=
  match rows with
  | [] => None
  | rec :: rest =>
    match parseRow colIndex rec with
    | Some a =>
      if decide (IATACode a = k) then Some a
      else firstAccepted colIndex k rest
    | None => firstAccepted colIndex k rest
    end
  end.

(** The entries of a map under the key [k]. *)
Definition entriesFor `{GoLib} (k : string) (m : gmap string Airport)
    : list (string * Airport) :=
  filter (λ kv, kv.1 = k) (map_to_list m).

Definition isFailure (r : ReadResult) : bool :=
  match r with Failure _ => true | Record_ _ => false end.

(** The header cannot be read: the input is at its end, or the first read
    fails. *)
Definition headerUnreadable (reader : Reader) : Prop :=
  match reader with
  | [] => True
  | r :: _ => isFailure r = true
  end.

(** A read after the header fails, not by the end of the input. *)
Definition dataReadFails (reader : Reader) : Prop :=
  Exists (λ r, isFailure r = true) (tail reader).

(** A string that starts with a white space rune; [sp2] and [sp3] as in
    [GoStrings.dropSpaces]. *)
Definition startsWithSpace (sp2 : ascii → ascii → bool)
    (sp3 : ascii → ascii → ascii → bool) (l : list ascii) : bool :=
  match l with
  | [] => false
  | c0 :: r0 =>
    Octet.isSpace c0
    || match r0 with
       | [] => false
       | c1 :: r1 =>
         sp2 c0 c1
         || match r1 with
            | [] => false
            | c2 :: _ => sp3 c0 c1 c2
            end
       end
  end.

(** No white space rune at either end. *)
Definition trimmed (l : list ascii) : Prop :=
  startsWithSpace GoStrings.space2 GoStrings.space3 l = false
  ∧ startsWithSpace (λ c1 c0, GoStrings.space2 c0 c1)
      (λ c2 c1 c0, GoStrings.space3 c0 c1 c2) (rev l) = false.

(** *** What the theorems ask of Go's Unicode tables and float parser *)


(** An upper-case mapping yields no lower-case ASCII letter. *)
Definition upperLaw `{GoLib} : Prop :=
  ∀ s, allBytes Octet.isASCII s = false →
       anyByte Octet.isLower (mapToUpper s) = false.

(** White space has no case: the upper-case image of a string without
    surrounding white space has none either. *)
Definition upperSpaceLaw `{GoLib} : Prop :=
  ∀ s, allBytes Octet.isASCII s = false →
       GoStrings.TrimSpace s = s →
       GoStrings.TrimSpace (mapToUpper s) = mapToUpper s.

(** [ParseFloat] returns [0] with [ErrSyntax], and the empty string is not
    a number. *)
Definition floatSyntaxLaw `{GoLib} : Prop :=
  ParseFloat EmptyString = (float64_zero, Some ErrSyntax)
  ∧ ∀ s v, ParseFloat s = (v, Some ErrSyntax) → v = float64_zero.

(** [ParseFloat] returns an infinity with [ErrRange]. *)
Definition floatRangeLaw `{GoLib} : Prop :=
  ∀ s v, ParseFloat s = (v, Some ErrRange) → ∃ neg, v = S754_infinity neg.

(** ** The fetcher tool

    The command that downloads the CSV ([main] and [copyFile]).  The files
    are a map from paths to contents; directories, links and permissions are
    not part of it.  What the operating system and the network decide is
    given to the functions: which calls fail, and how much a failing copy
    wrote. *)

Abbreviation FS := (gmap string string).

(** The error of a failed system call, with the call and its path. *)
Inductive OsError :=
  | PathError (op path : string)
  | LinkError (old new : string)
  | WriteError (written : nat).

(** [fmt.Errorf("<prefix>: %w", err)]. *)
Definition Wrapped : Type := string * OsError.

(** What the system decides during one [copyFile]: the calls that fail;
    [copyFails = Some n] is an [io.Copy] that fails once [n] bytes are
    written. *)
Record CopyFaults := {
  openFails : bool;
  createFails : bool;
  copyFails : option nat;
  closeFails : bool;
  renameFails : bool
}.

(** [copyFile]: the files after the call and the error returned.
    [os.Open] fails on a path without a file; [os.Create] makes the file
    empty; [io.Copy] reads the file that was opened, which is empty by then
    if it is the temporary file itself; [os.Rename] replaces the target and
    removes the source path. *)
Definition copyFile (fl : CopyFaults) (fs : FS) (src dst : string)
    : FS * option Wrapped :=
  match (if openFails fl then None else fs !! src) with
  | None => (fs, Some ("open src", PathError "open" src))
  | Some _ =>
    let tmp := dst +:+ ".tmp" in
    if createFails fl then (fs, Some ("create dst", PathError "open" tmp))
    else
      let fs1 := <[tmp := EmptyString]> fs in
      let content := default EmptyString (fs1 !! src) in
      match copyFails fl with
      | Some n =>
        (<[tmp := String.substring 0 n content]> fs1,
         Some ("copy", WriteError n))
      | None =>
        let fs2 := <[tmp := content]> fs1 in
        if closeFails fl then (fs2, Some ("close dst", PathError "close" tmp))
        else if renameFails fl then (fs2, Some ("rename", LinkError tmp dst))
        else (<[dst := content]> (delete tmp fs2), None)
      end
  end.

(** The answer to [http.Get]: an error, or a response with its status code
    and body. *)
Inductive HttpResult :=
  | GetFailed
  | Response (status : Z) (body : string).

(** What [main] is given by its surroundings: [filepath.Join], the time of
    the run in the layout [20060102-150405], the answer of the network to
    each URL, and the system calls that fail. *)
Record FetchEnv := {
  pathJoin : string → string → string;
  timestamp : string;
  httpGet : string → HttpResult;
  mkdirFails : bool;
  tempCreateFails : bool;
  downloadFails : option nat;
  tempCloseFails : bool;
  tempRenameFails : bool;
  latestFaults : CopyFaults
}.

(** How the command ends: it returns, or [log.Fatalf] stops it with a
    message. *)
Inductive Exit :=
  | Returned
  | Fatal (msg : string).

Definition fullPathOf (env : FetchEnv) (outDir : string) : string :=
  pathJoin env outDir ("airports-" +:+ timestamp env +:+ ".csv").

Definition latestPathOf (env : FetchEnv) (outDir : string) : string :=
  pathJoin env outDir "airports-latest.csv".

(** [main], with the values of the flags [-out] and [-url]: the files at the
    end and how the command ends. *)
Definition main (env : FetchEnv) (outDir url : string) (fs : FS)
    : FS * Exit :=
  if mkdirFails env then (fs, Fatal "failed to create output dir")
  else
    let fullPath := fullPathOf env outDir in
    let latestPath := latestPathOf env outDir in
    match httpGet env url with
    | GetFailed => (fs, Fatal "failed to download airports CSV")
    | Response status body =>
      if negb (status =? 200)%Z then (fs, Fatal "unexpected status code")
      else
        let tempPath := fullPath +:+ ".tmp" in
        if tempCreateFails env then (fs, Fatal "failed to create temp file")
        else
          let fs1 := <[tempPath := EmptyString]> fs in
          match downloadFails env with
          | Some n =>
            (<[tempPath := String.substring 0 n body]> fs1,
             Fatal "failed to write CSV")
          | None =>
            let fs2 := <[tempPath := body]> fs1 in
            if tempCloseFails env
            then (fs2, Fatal "failed to close temp file")
            else if tempRenameFails env
            then (fs2, Fatal "failed to move temp file to final path")
            else
              let fs3 := <[fullPath := body]> (delete tempPath fs2) in
              match copyFile (latestFaults env) fs3 fullPath latestPath with
              | (fs4, Some _) => (fs4, Fatal "failed to update")
              | (fs4, None) => (fs4, Returned)
              end
          end
    end.

(** A system where no call fails. *)
Definition noFaults : CopyFaults :=
  {| openFails := false; createFails := false; copyFails := None;
     closeFails := false; renameFails := false |}.

Definition faultFree (fl : CopyFaults) : Prop :=
  openFails fl = false ∧ createFails fl = false ∧ copyFails fl = None
  ∧ closeFails fl = false ∧ renameFails fl = false.

(** Inputs for the fetcher and for the default store. *)
Module FetchSample.

Definition files : gmap string string :=
  {[ "data/airports-latest.csv" := "old" ]}.

Definition body : string := "id,iata_code".

(** A run at a given time that receives [body] with status 200; the path is
    joined with a slash. *)
Definition env (copyFault : option nat) : FetchEnv :=
  {| pathJoin := λ dir name, dir +:+ "/" +:+ name;
     timestamp := "20240102-030405";
     httpGet := λ _, Response 200 body;
     mkdirFails := false; tempCreateFails := false;
     downloadFails := None; tempCloseFails := false;
     tempRenameFails := false;
     latestFaults :=
       {| openFails := false; createFails := false;
          copyFails := copyFault; closeFails := false;
          renameFails := false |} |}.

(** The old latest file beside a new file to copy over it, and a system
    where the copy fails once three bytes are written. *)
Definition twoFiles : gmap string string :=
  <[ "new.csv" := body ]> files.

Definition copyStops : CopyFaults :=
  {| openFails := false; createFails := false; copyFails := Some 3%nat;
     closeFails := false; renameFails := false |}.

(** Surroundings whose environment variable names a CSV file. *)
Definition oneFile : World :=
  {| AIRPORTS_CSV_PATH := "airports.csv";
     openFile := λ path,
       if String.eqb path "airports.csv"
       then Some [Record_ Sample.nameHeader; Record_ Sample.rowJFK]
       else None |}.

End FetchSample.

(** ** More vocabulary *)


(** The airports of the accepted rows, in the order of the rows. *)
Definition acceptedAirports `{GoLib} (colIndex : gmap string nat)
    (rows : list (list string)) : list Airport :=
  omap (parseRow colIndex) rows.


(** The column names of a header, trimmed as the loader reads them. *)
Definition columnNames (header : list string) : list string :=
  GoStrings.TrimSpace <$> header.

(** The columns the loader reads. *)
Definition knownColumns : list string :=
  ["id"; "latitude_deg"; "longitude_deg"; "elevation_ft"; "score";
   "last_updated"; "scheduled_service"; "iata_code"; "ident"; "type"; "name";
   "continent"; "country_name"; "iso_country"; "region_name"; "iso_region";
   "local_region"; "municipality"; "gps_code"; "icao_code"; "local_code";
   "home_link"; "wikipedia_link"; "keywords"].

(** * Proofs *)

(** ** Bytes *)

Ltac break_cmp :=
  repeat match goal with
  | |- context [N.leb ?a ?b] => destruct (N.leb_spec a b)
  | |- context [N.eqb ?a ?b] => destruct (N.eqb_spec a b)
  | |- context [N.ltb ?a ?b] => destruct (N.ltb_spec a b)
  | H : context [N.leb ?a ?b] |- _ => destruct (N.leb_spec a b)
  | H : context [N.eqb ?a ?b] |- _ => destruct (N.eqb_spec a b)
  | H : context [N.ltb ?a ?b] |- _ => destruct (N.ltb_spec a b)
  end; simpl in *; try discriminate; try lia; try reflexivity.

Lemma val_bound c : Octet.val c < 256.
Proof. apply N_ascii_bounded. Qed.

Lemma val_inj c c' : Octet.val c = Octet.val c' → c = c'.
Proof.
  unfold Octet.val. intros E.
  rewrite <- (ascii_N_embedding c), <- (ascii_N_embedding c'). now rewrite E.
Qed.

Lemma val_of_N n : n < 256 → Octet.val (ascii_of_N n) = n.
Proof. apply N_ascii_embedding. Qed.

Lemma val_upper c :
  Octet.val (Octet.upper c) = if Octet.isLower c then Octet.val c - 32 else Octet.val c.
Proof.
  unfold Octet.upper. destruct (Octet.isLower c) eqn:E; [|reflexivity].
  unfold Octet.isLower in E. apply andb_true_iff in E as [E1 E2].
  apply N.leb_le in E1, E2.
  assert (Hm : (Octet.val c + 256 - 97 + 65) mod 256 = Octet.val c - 32).
  { symmetry. apply (N.mod_unique _ _ 1); lia. }
  rewrite Hm. apply val_of_N. lia.
Qed.

Lemma val_lower c :
  Octet.val (Octet.lower c) = if Octet.isUpper c then Octet.val c + 32 else Octet.val c.
Proof.
  unfold Octet.lower. destruct (Octet.isUpper c) eqn:E; [|reflexivity].
  unfold Octet.isUpper in E. apply andb_true_iff in E as [E1 E2].
  apply N.leb_le in E1, E2.
  assert (Hm : (Octet.val c + 97 - 65) mod 256 = Octet.val c + 32).
  { symmetry. apply (N.mod_unique _ _ 0); lia. }
  rewrite Hm. apply val_of_N. lia.
Qed.

Ltac octet :=
  unfold caseOf, Octet.isSpace, Octet.isASCII, Octet.isDigit;
  unfold Octet.isLower, Octet.isUpper;
  rewrite ?val_upper, ?val_lower;
  unfold Octet.isLower, Octet.isUpper;
  break_cmp.

Lemma upper_not_lower c : Octet.isLower (Octet.upper c) = false.
Proof. octet. Qed.

Lemma upper_isSpace c : Octet.isSpace (Octet.upper c) = Octet.isSpace c.
Proof. octet. Qed.

Lemma upper_isASCII c : Octet.isASCII (Octet.upper c) = Octet.isASCII c.
Proof. octet. Qed.

Lemma upper_fix c : Octet.isLower c = false → Octet.upper c = c.
Proof. unfold Octet.upper. now intros ->. Qed.


Lemma caseOf_upper c c' :
  caseOf c c' = true ↔ Octet.upper c = Octet.upper c'.
Proof.
  split.
  - intros H. apply val_inj. revert H. octet.
  - intros H. apply (f_equal Octet.val) in H. revert H. octet.
Qed.



(** ** Strings, byte by byte *)

Lemma mapBytes_upper_no_lower s :
  anyByte Octet.isLower (mapBytes Octet.upper s) = false.
Proof.
  induction s as [|c s IH]; simpl; [reflexivity|].
  now rewrite upper_not_lower, IH.
Qed.

Lemma mapBytes_upper_fix s :
  anyByte Octet.isLower s = false → mapBytes Octet.upper s = s.
Proof.
  induction s as [|c s IH]; simpl; [reflexivity|].
  intros H. apply orb_false_iff in H as [Hc Hs].
  now rewrite upper_fix, IH.
Qed.


Lemma mapBytes_empty f s : mapBytes f s = EmptyString ↔ s = EmptyString.
Proof. destruct s; simpl; split; congruence. Qed.

Lemma caseVariant_upper s t :
  caseVariant s t = true ↔ toUpperASCII s = toUpperASCII t.
Proof.
  unfold toUpperASCII. revert t.
  induction s as [|c s IH]; intros [|c' t]; simpl; try (split; congruence).
  rewrite andb_true_iff, caseOf_upper, IH. split.
  - intros [-> ->]. reflexivity.
  - intros H. injection H. auto.
Qed.



Lemma caseVariant_refl s : caseVariant s s = true.
Proof. apply caseVariant_upper. reflexivity. Qed.

Lemma caseVariant_sym s t : caseVariant s t = caseVariant t s.
Proof.
  apply eq_true_iff_eq. rewrite !caseVariant_upper. split; congruence.
Qed.


(** On an ASCII string, [strings.ToUpper] is [toUpperASCII]. *)
Lemma ToUpper_ascii `{GoLib} s :
  allBytes Octet.isASCII s = true →
  GoStrings.ToUpper s = toUpperASCII s.
Proof.
  intros Ha. unfold GoStrings.ToUpper, toUpperASCII. rewrite Ha.
  destruct (anyByte Octet.isLower s) eqn:E; [reflexivity|].
  symmetry. now apply mapBytes_upper_fix.
Qed.

Lemma ToUpper_no_lower `{GoLib} s :
  upperLaw → anyByte Octet.isLower (GoStrings.ToUpper s) = false.
Proof.
  intros Hlaw. destruct (allBytes Octet.isASCII s) eqn:Ha.
  - rewrite ToUpper_ascii by assumption. apply mapBytes_upper_no_lower.
  - unfold GoStrings.ToUpper. rewrite Ha. now apply Hlaw.
Qed.

(** ** Trimming *)

Section DropSpaces.

Variable sp2 : ascii → ascii → bool.
Variable sp3 : ascii → ascii → ascii → bool.

Let drop := GoStrings.dropSpaces sp2 sp3.
Let starts := startsWithSpace sp2 sp3.

(** The cases of [dropSpaces]: it stops on a list that does not start
    with a white space rune, and goes on after a rune of one, two or
    three bytes. *)
Lemma dropSpaces_elim (P : list ascii → list ascii → Prop) :
  (∀ l, starts l = false → P l l) →
  (∀ c0 r, Octet.isSpace c0 = true → P r (drop r) → P (c0 :: r) (drop r)) →
  (∀ c0 c1 r, Octet.isSpace c0 = false → sp2 c0 c1 = true →
     P r (drop r) → P (c0 :: c1 :: r) (drop r)) →
  (∀ c0 c1 c2 r, Octet.isSpace c0 = false → sp2 c0 c1 = false →
     sp3 c0 c1 c2 = true → P r (drop r) → P (c0 :: c1 :: c2 :: r) (drop r)) →
  ∀ l, P l (drop l).
Proof.
  intros Hstop H1 H2 H3 l.
  assert (Hn : ∀ n l, (length l ≤ n)%nat → P l (drop l)).
  { clear l. induction n as [|n IH]; intros l Hl.
    - destruct l; [|simpl in Hl; lia]. now apply Hstop.
    - destruct l as [|c0 r0]; [now apply Hstop|].
      simpl in Hl. subst drop starts. simpl.
      destruct (Octet.isSpace c0) eqn:E0.
      { apply H1; [assumption|]. apply IH. lia. }
      destruct r0 as [|c1 r1].
      { apply Hstop. simpl. now rewrite E0. }
      destruct (sp2 c0 c1) eqn:E2.
      { apply H2; try assumption. apply IH. simpl in Hl. lia. }
      destruct r1 as [|c2 r2].
      { apply Hstop. simpl. now rewrite E0, E2. }
      destruct (sp3 c0 c1 c2) eqn:E3.
      { apply H3; try assumption. apply IH. simpl in Hl. lia. }
      apply Hstop. simpl. now rewrite E0, E2, E3. }
  apply (Hn (length l)). lia.
Qed.

Lemma dropSpaces_suffix l : drop l `suffix_of` l.
Proof.
  apply (dropSpaces_elim (λ l res, res `suffix_of` l)).
  - reflexivity.
  - intros c0 r _ H. now apply suffix_cons_r.
  - intros c0 c1 r _ _ H. now do 2 apply suffix_cons_r.
  - intros c0 c1 c2 r _ _ _ H. now do 3 apply suffix_cons_r.
Qed.

Lemma dropSpaces_starts l : starts (drop l) = false.
Proof.
  apply (dropSpaces_elim (λ _ res, starts res = false)); auto.
Qed.

Lemma dropSpaces_stuck l : starts l = false → drop l = l.
Proof.
  subst drop starts.
  destruct l as [|c0 [|c1 [|c2 r]]]; simpl; intros H;
    repeat (apply orb_false_iff in H as [? H]);
    repeat match goal with E : _ = false |- _ => rewrite E; clear E end;
    reflexivity.
Qed.

Lemma starts_prefix u t :
  u `prefix_of` t → starts t = false → starts u = false.
Proof.
  subst starts. intros [k ->].
  destruct u as [|c0 [|c1 [|c2 u]]]; simpl; intros H;
    repeat (apply orb_false_iff in H as [? H]);
    repeat match goal with E : _ = false |- _ => rewrite E; clear E end;
    reflexivity.
Qed.

(** On ASCII bytes only the one-byte white space counts. *)
Lemma starts_ascii l :
  (∀ a b, Octet.isASCII a = true → Octet.isASCII b = true →
          sp2 a b = false) →
  (∀ a b c, Octet.isASCII a = true → Octet.isASCII b = true →
            Octet.isASCII c = true → sp3 a b c = false) →
  forallb Octet.isASCII l = true →
  starts l = match l with c0 :: _ => Octet.isSpace c0 | [] => false end.
Proof.
  subst starts. intros H2 H3.
  destruct l as [|c0 [|c1 [|c2 r]]]; simpl; intros H;
    repeat (apply andb_true_iff in H as [? H]);
    rewrite ?H2, ?H3 by assumption;
    rewrite ?orb_false_r; reflexivity.
Qed.

End DropSpaces.

Lemma list_of_mapBytes f s :
  list_ascii_of_string (mapBytes f s) = map f (list_ascii_of_string s).
Proof. induction s as [|c s IH]; simpl; [reflexivity|]. now rewrite IH. Qed.

Lemma allBytes_forallb p s :
  allBytes p s = forallb p (list_ascii_of_string s).
Proof. induction s as [|c s IH]; simpl; [reflexivity|]. now rewrite IH. Qed.

Lemma trimRight_prefix l : GoStrings.trimRight l `prefix_of` l.
Proof.
  unfold GoStrings.trimRight.
  destruct (dropSpaces_suffix (λ c1 c0, GoStrings.space2 c0 c1)
              (λ c2 c1 c0, GoStrings.space3 c0 c1 c2) (rev l)) as [k Hk].
  exists (rev k). apply (f_equal (@rev ascii)) in Hk.
  rewrite rev_involutive, rev_app_distr in Hk. exact Hk.
Qed.

Lemma trim_trimmed l : trimmed (GoStrings.trimRight (GoStrings.trimLeft l)).
Proof.
  split.
  - apply (starts_prefix _ _ _ _ (trimRight_prefix _)).
    apply dropSpaces_starts.
  - unfold GoStrings.trimRight. rewrite rev_involutive.
    apply dropSpaces_starts.
Qed.

Lemma trimmed_fix l :
  trimmed l → GoStrings.trimRight (GoStrings.trimLeft l) = l.
Proof.
  intros [Hl Hr]. unfold GoStrings.trimLeft.
  rewrite (dropSpaces_stuck _ _ _ Hl).
  unfold GoStrings.trimRight. rewrite (dropSpaces_stuck _ _ _ Hr).
  apply rev_involutive.
Qed.

Lemma TrimSpace_trimmed s :
  trimmed (list_ascii_of_string (GoStrings.TrimSpace s)).
Proof.
  unfold GoStrings.TrimSpace. rewrite list_ascii_of_string_of_list_ascii.
  apply trim_trimmed.
Qed.

Lemma TrimSpace_fix s :
  trimmed (list_ascii_of_string s) → GoStrings.TrimSpace s = s.
Proof.
  intros H. unfold GoStrings.TrimSpace. rewrite (trimmed_fix _ H).
  apply string_of_list_ascii_of_string.
Qed.

Lemma TrimSpace_fix_iff s :
  GoStrings.TrimSpace s = s ↔ trimmed (list_ascii_of_string s).
Proof.
  split; [|apply TrimSpace_fix].
  intros <-. apply TrimSpace_trimmed.
Qed.

(** Trimming twice is trimming once. *)
Lemma TrimSpace_idem s :
  GoStrings.TrimSpace (GoStrings.TrimSpace s) = GoStrings.TrimSpace s.
Proof. apply TrimSpace_fix, TrimSpace_trimmed. Qed.

Lemma TrimSpace_empty : GoStrings.TrimSpace EmptyString = EmptyString.
Proof. reflexivity. Qed.

Lemma space2_first a b : Octet.isASCII a = true → GoStrings.space2 a b = false.
Proof.
  unfold GoStrings.space2, Octet.isASCII. intros H. apply N.ltb_lt in H.
  assert (E : (Octet.val a =? 194) = false) by (apply N.eqb_neq; lia).
  now rewrite E.
Qed.

Lemma space3_first a b c :
  Octet.isASCII a = true → GoStrings.space3 a b c = false.
Proof.
  unfold GoStrings.space3, Octet.isASCII. intros H. apply N.ltb_lt in H.
  assert (E1 : (Octet.val a =? 225) = false) by (apply N.eqb_neq; lia).
  assert (E2 : (Octet.val a =? 226) = false) by (apply N.eqb_neq; lia).
  assert (E3 : (Octet.val a =? 227) = false) by (apply N.eqb_neq; lia).
  now rewrite E1, E2, E3.
Qed.

Lemma forallb_map_upper l :
  forallb Octet.isASCII (map Octet.upper l) = forallb Octet.isASCII l.
Proof.
  induction l as [|c l IH]; simpl; [reflexivity|].
  now rewrite upper_isASCII, IH.
Qed.

Lemma forallb_rev {A} (p : A → bool) l : forallb p (rev l) = forallb p l.
Proof.
  induction l as [|c l IH]; simpl; [reflexivity|].
  rewrite forallb_app, IH. simpl. rewrite andb_true_r. apply andb_comm.
Qed.

(** The byte map to upper case keeps an ASCII string trimmed. *)
Lemma trimmed_map_upper l :
  forallb Octet.isASCII l = true → trimmed l → trimmed (map Octet.upper l).
Proof.
  intros Ha [Hl Hr].
  assert (Har : forallb Octet.isASCII (rev l) = true)
    by now rewrite forallb_rev.
  split.
  - rewrite starts_ascii in Hl by auto using space2_first, space3_first.
    rewrite starts_ascii;
      [|auto using space2_first|auto using space3_first
       |now rewrite forallb_map_upper].
    destruct l; simpl in *; [reflexivity|]. now rewrite upper_isSpace.
  - rewrite <- map_rev.
    rewrite starts_ascii in Hr by auto using space2_first, space3_first.
    rewrite starts_ascii;
      [|auto using space2_first|auto using space3_first
       |now rewrite forallb_map_upper].
    destruct (rev l); simpl in *; [reflexivity|]. now rewrite upper_isSpace.
Qed.

Lemma ToUpper_trimmed `{GoLib} t :
  upperSpaceLaw →
  GoStrings.TrimSpace t = t →
  GoStrings.TrimSpace (GoStrings.ToUpper t) = GoStrings.ToUpper t.
Proof.
  intros Hlaw Ht. destruct (allBytes Octet.isASCII t) eqn:Ha.
  - rewrite ToUpper_ascii by assumption. apply TrimSpace_fix.
    unfold toUpperASCII. rewrite list_of_mapBytes.
    apply trimmed_map_upper.
    + now rewrite <- allBytes_forallb.
    + now apply TrimSpace_fix_iff.
  - unfold GoStrings.ToUpper. rewrite Ha. now apply Hlaw.
Qed.

(** ** Integers *)

Lemma parseUintLoop_error n s v e :
  GoStrconv.parseUintLoop n s = (v, Some e) →
  e = ErrSyntax ∨ v = GoStrconv.maxUint64.
Proof.
  revert n. induction s as [|c s IH]; simpl; intros n; [discriminate|].
  destruct (Octet.isDigit c); [|intros [= <- <-]; now left].
  destruct (_ <=? n)%Z; [intros [= <- <-]; now right|].
  destruct (_ <? _)%Z; [intros [= <- <-]; now right|].
  apply IH.
Qed.

Lemma parseUintLoop_nondigit n s :
  allBytes Octet.isDigit s = false →
  snd (GoStrconv.parseUintLoop n s) ≠ None.
Proof.
  revert n. induction s as [|c s IH]; simpl; intros n; [discriminate|].
  destruct (Octet.isDigit c); simpl; [|discriminate].
  intros Hs. destruct (_ <=? n)%Z; [discriminate|].
  destruct (_ <? _)%Z; [discriminate|]. now apply IH.
Qed.

(** The sign of a literal apart, [ParseInt] has an error when [ParseUint]
    has one. *)
Lemma ParseInt_error c r :
  let body :=
    if (Octet.val c =? 43) || (Octet.val c =? 45) then r else String c r in
  snd (GoStrconv.ParseUint body) ≠ None →
  snd (GoStrconv.ParseInt (String c r)) ≠ None.
Proof.
  intros body. unfold GoStrconv.ParseInt. fold body.
  destruct (GoStrconv.ParseUint body) as [un [[|]|]] eqn:E; simpl;
    [discriminate| |congruence].
  intros _.
  assert (Hun : un = GoStrconv.maxUint64).
  { unfold GoStrconv.ParseUint in E. destruct body; [discriminate|].
    apply parseUintLoop_error in E as [E|E]; [discriminate|exact E]. }
  subst un. destruct (Octet.val c =? 45); simpl; discriminate.
Qed.

(** What is not a decimal integer literal has no integer value. *)
Lemma ParseInt_nonnumeric s :
  isDecimalInt s = false → snd (GoStrconv.ParseInt s) ≠ None.
Proof.
  destruct s as [|c r]; [discriminate|].
  intros H. apply ParseInt_error. unfold isDecimalInt in H.
  destruct (if (Octet.val c =? 43) || (Octet.val c =? 45) then r
            else String c r) as [|c' r'] eqn:E; [discriminate|].
  unfold GoStrconv.ParseUint. now apply parseUintLoop_nondigit.
Qed.

Lemma optInt_empty : optInt EmptyString = None.
Proof. reflexivity. Qed.

Lemma optInt_zero : optInt "0" = Some 0%Z.
Proof. reflexivity. Qed.

Lemma optInt_error cell :
  snd (GoStrconv.ParseInt cell) ≠ None → optInt cell = None.
Proof.
  unfold optInt. destruct cell; [reflexivity|].
  destruct (GoStrconv.ParseInt _) as [v [e|]]; simpl; congruence.
Qed.

Lemma optInt_Some cell v :
  optInt cell = Some v ↔
  cell ≠ EmptyString ∧ GoStrconv.ParseInt cell = (v, None).
Proof.
  unfold optInt. destruct cell; [split; [discriminate|intros [[] _]; reflexivity]|].
  destruct (GoStrconv.ParseInt _) as [v' [e|]]; split.
  - discriminate.
  - intros [_ [=]].
  - intros [= ->]. split; [discriminate|reflexivity].
  - intros [_ [= ->]]. reflexivity.
Qed.

Lemma optInt_optionalField cell : optionalField cell (optInt cell).
Proof.
  split; [|split; [|split; [|split]]].
  - intros ->. reflexivity.
  - intros ->. reflexivity.
  - intros _ Hn. now apply optInt_error, ParseInt_nonnumeric.
  - apply optInt_error.
  - intros v Hv. now apply optInt_Some in Hv.
Qed.

(** ** One record *)

Lemma get_rawCell colIndex rec col :
  get colIndex rec col =
  match rawCell colIndex rec col with
  | None => EmptyString
  | Some cell => GoStrings.TrimSpace cell
  end.
Proof. unfold get, rawCell. now destruct (colIndex !! col). Qed.

Lemma get_trimmed colIndex rec col :
  GoStrings.TrimSpace (get colIndex rec col) = get colIndex rec col.
Proof.
  rewrite get_rawCell. destruct (rawCell colIndex rec col);
    [apply TrimSpace_idem|reflexivity].
Qed.

(** The condition under which the loop body leaves a record at its [id]. *)
Lemma badId_get colIndex rec :
  badId colIndex rec ↔
  get colIndex rec "id" = EmptyString
  ∨ snd (GoStrconv.ParseInt (get colIndex rec "id")) ≠ None.
Proof.
  unfold badId. rewrite get_rawCell.
  destruct (rawCell colIndex rec "id"); [reflexivity|].
  split; [now left|trivial].
Qed.

Lemma normalizedIATA_get `{GoLib} colIndex rec :
  GoStrings.ToUpper (GoStrings.TrimSpace (get colIndex rec "iata_code"))
  = normalizedIATA colIndex rec.
Proof.
  unfold normalizedIATA. rewrite get_rawCell.
  destruct (rawCell colIndex rec "iata_code"); [|reflexivity].
  now rewrite TrimSpace_idem.
Qed.

(** The fields of the airport of an accepted record. *)
Lemma parseRow_Some `{GoLib} colIndex rec a :
  parseRow colIndex rec = Some a →
  let get := get colIndex rec in
  get "id" ≠ EmptyString
  ∧ GoStrconv.ParseInt (get "id") = (ID a, None)
  ∧ IATACode a = normalizedIATA colIndex rec
  ∧ IATACode a ≠ EmptyString
  ∧ LatitudeDeg a = fst (ParseFloat (get "latitude_deg"))
  ∧ LongitudeDeg a = fst (ParseFloat (get "longitude_deg"))
  ∧ ElevationFt a = optInt (get "elevation_ft")
  ∧ Score a = optInt (get "score")
  ∧ Scheduled a =
      bool_decide (GoStrings.ToLower (get "scheduled_service") ∈ truthy)
  ∧ Name a = get "name".
Proof.
  unfold parseRow. rewrite normalizedIATA_get.
  destruct (get colIndex rec "id") as [|c r] eqn:Eid; [discriminate|].
  destruct (GoStrconv.ParseInt (String c r)) as [id [e|]]; [discriminate|].
  destruct (normalizedIATA colIndex rec) as [|c' r'] eqn:Ei; [discriminate|].
  intros [= <-]. cbn -[get GoStrings.ToLower optInt ParseFloat truthy].
  repeat split; try congruence.
  set (ss := GoStrings.ToLower _). unfold truthy.
  destruct (String.eqb_spec ss "1") as [->|N1]; [reflexivity|].
  destruct (String.eqb_spec ss "yes") as [->|N2]; [reflexivity|].
  destruct (String.eqb_spec ss "true") as [->|N3]; [reflexivity|].
  simpl. symmetry. apply bool_decide_eq_false.
  rewrite !elem_of_cons, elem_of_nil. tauto.
Qed.

(** A record is accepted exactly when its [id] is read and its code is
    not empty: no other cell has a say. *)
Lemma parseRow_is_Some `{GoLib} colIndex rec :
  is_Some (parseRow colIndex rec) ↔
  ¬ badId colIndex rec ∧ normalizedIATA colIndex rec ≠ EmptyString.
Proof.
  rewrite badId_get. unfold parseRow. rewrite normalizedIATA_get.
  destruct (get colIndex rec "id") as [|c r] eqn:Eid.
  { split; [intros [? [=]]|intros [[] _]; now left]. }
  destruct (GoStrconv.ParseInt (String c r)) as [id [e|]]; simpl.
  { split; [intros [? [=]]|intros [[] _]; now right]. }
  destruct (normalizedIATA colIndex rec) as [|c' r'].
  { split; [intros [? [=]]|intros [_ []]; reflexivity]. }
  split; [|eauto]. intros _. split; [intros [[=]|[]]; reflexivity|discriminate].
Qed.

Lemma parseRow_None `{GoLib} colIndex rec :
  parseRow colIndex rec = None ↔
  badId colIndex rec ∨ normalizedIATA colIndex rec = EmptyString.
Proof.
  rewrite eq_None_not_Some, parseRow_is_Some.
  split.
  - intros Hn. destruct (decide (normalizedIATA colIndex rec = EmptyString));
      [now right|left].
    rewrite badId_get in *.
    destruct (decide (get colIndex rec "id" = EmptyString)); [now left|].
    destruct (snd (GoStrconv.ParseInt (get colIndex rec "id"))) eqn:E;
      [right; congruence|].
    exfalso. apply Hn. split; [|assumption]. intros [?|?]; congruence.
  - intros [Hb|He] [Hnb Hne]; [now apply Hnb|now apply Hne].
Qed.

(** ** The loop *)

Section Loop.

Context `{GoLib}.
Variable colIndex : gmap string nat.

Lemma loopBody_skip m rec :
  parseRow colIndex rec = None → loopBody colIndex m rec = m.
Proof. unfold loopBody. now intros ->. Qed.

Lemma insertFirst_lookup m a k :
  insertFirst m a !! k =
  match m !! k with
  | Some b => Some b
  | None => if decide (IATACode a = k) then Some a else None
  end.
Proof.
  unfold insertFirst. destruct (m !! IATACode a) eqn:E.
  - destruct (m !! k) eqn:Ek; [reflexivity|].
    destruct (decide (IATACode a = k)); congruence.
  - destruct (decide (IATACode a = k)) as [<-|Hne].
    + now rewrite lookup_insert_eq, E.
    + rewrite lookup_insert_ne by assumption. now destruct (m !! k).
Qed.

(** A record that the loop body leaves can be taken out of the input. *)
Lemma readLoop_skip m pre rec post :
  parseRow colIndex rec = None →
  readLoop colIndex m (pre ++ Record_ rec :: post)
  = readLoop colIndex m (pre ++ post).
Proof.
  intros Hskip. revert m.
  induction pre as [|[r|f] pre IH]; intros m; simpl.
  - now rewrite loopBody_skip.
  - apply IH.
  - reflexivity.
Qed.

(** Over records only, the loop is a left fold of its body. *)
Lemma readLoop_records m rows :
  readLoop colIndex m (map Record_ rows)
  = inl {| byIATA := foldl (loopBody colIndex) m rows |}.
Proof.
  revert m. induction rows as [|r rows IH]; intros m; simpl;
    [reflexivity|apply IH].
Qed.

Lemma readLoop_inl m reader st :
  readLoop colIndex m reader = inl st →
  ∃ rows, reader = map Record_ rows
          ∧ byIATA st = foldl (loopBody colIndex) m rows.
Proof.
  revert m. induction reader as [|[r|f] reader IH]; intros m; simpl.
  - intros [= <-]. now exists [].
  - intros Hl. destruct (IH _ Hl) as (rows & -> & ->). now exists (r :: rows).
  - discriminate.
Qed.

(** The loop ends in an error exactly when a read fails. *)
Lemma readLoop_error m reader :
  (∃ e, readLoop colIndex m reader = inr e)
  ↔ Exists (λ r, isFailure r = true) reader.
Proof.
  revert m. induction reader as [|[r|f] reader IH]; intros m; simpl.
  - split; [intros [e [=]]|intros Hex; inversion Hex].
  - rewrite IH. split; [now right|].
    intros Hex. inversion Hex; subst; [discriminate|assumption].
  - split; [now left|eauto].
Qed.

(** Under each code the fold keeps what the map had, and otherwise the
    airport of the first accepted record with that code. *)
Lemma foldl_lookup m rows k :
  foldl (loopBody colIndex) m rows !! k =
  match m !! k with
  | Some b => Some b
  | None => firstAccepted colIndex k rows
  end.
Proof.
  revert m. induction rows as [|r rows IH]; intros m; simpl.
  - now destruct (m !! k).
  - rewrite IH. unfold loopBody.
    destruct (parseRow colIndex r) as [a|]; [|reflexivity].
    rewrite insertFirst_lookup.
    destruct (m !! k); [reflexivity|].
    now destruct (decide (IATACode a = k)).
Qed.

Lemma firstAccepted_Some k rows a :
  firstAccepted colIndex k rows = Some a →
  ∃ rec, rec ∈ rows ∧ parseRow colIndex rec = Some a ∧ IATACode a = k.
Proof.
  induction rows as [|r rows IH]; simpl; [discriminate|].
  destruct (parseRow colIndex r) as [b|] eqn:E.
  - destruct (decide (IATACode b = k)) as [Hk|Hk].
    + intros [= ->]. exists r. split; [left|auto].
    + intros Hf. destruct (IH Hf) as (rec & ? & ? & ?).
      exists rec. split; [now right|auto].
  - intros Hf. destruct (IH Hf) as (rec & ? & ? & ?).
    exists rec. split; [now right|auto].
Qed.

(** The first accepted record with a code, by the records before it. *)
Lemma firstAccepted_app pre rec post a :
  Forall (λ r, ∀ b, parseRow colIndex r = Some b →
                    IATACode b ≠ IATACode a) pre →
  parseRow colIndex rec = Some a →
  firstAccepted colIndex (IATACode a) (pre ++ rec :: post) = Some a.
Proof.
  intros Hpre Hrec. induction Hpre as [|r pre Hr _ IH]; simpl.
  - rewrite Hrec. now rewrite decide_True.
  - destruct (parseRow colIndex r) as [b|] eqn:E; [|exact IH].
    rewrite decide_False; [exact IH|]. now apply Hr.
Qed.

(** Every airport of the fold is in the map already or comes from an
    accepted record, and is stored under its own code. *)
Lemma foldl_origin m rows k a :
  foldl (loopBody colIndex) m rows !! k = Some a →
  m !! k = Some a
  ∨ ∃ rec, rec ∈ rows ∧ parseRow colIndex rec = Some a ∧ IATACode a = k.
Proof.
  rewrite foldl_lookup. destruct (m !! k); [now left|].
  intros Hf. right. now apply firstAccepted_Some.
Qed.

End Loop.

Lemma filter_unique {A} (P : A → Prop) `{∀ x, Decision (P x)} (l : list A) x :
  NoDup l → x ∈ l → P x → (∀ y, y ∈ l → P y → y = x) → filter P l = [x].
Proof.
  intros Hnd Hin Hx Huniq.
  induction l as [|y l IH]; [inversion Hin|].
  apply NoDup_cons in Hnd as [Hy Hnd].
  assert (Hnone : ∀ l', (∀ z, z ∈ l' → P z → z = x) → x ∉ l' → filter P l' = []).
  { clear. intros l' Hu Hx. induction l' as [|z l' IH]; [reflexivity|].
    rewrite filter_cons. destruct (decide (P z)) as [Hz|Hz].
    - exfalso. apply Hx. rewrite <- (Hu z); [left|left|assumption].
    - apply IH; [|intros Hin; apply Hx; now right].
      intros w Hw. apply Hu. now right. }
  rewrite filter_cons. apply elem_of_cons in Hin as [->|Hin].
  - rewrite decide_True by assumption. f_equal.
    apply Hnone; [|assumption]. intros z Hz. apply Huniq. now right.
  - assert (y ≠ x) by (intros ->; contradiction).
    rewrite decide_False.
    + apply IH; try assumption. intros z Hz. apply Huniq. now right.
    + intros Hy'. apply H0. apply Huniq; [left|assumption].
Qed.

(** A key with an entry has that entry and no other. *)
Lemma entriesFor_lookup `{GoLib} k a (m : gmap string Airport) :
  m !! k = Some a → entriesFor k m = [(k, a)].
Proof.
  intros Hk. unfold entriesFor. apply filter_unique.
  - apply NoDup_map_to_list.
  - now apply elem_of_map_to_list.
  - reflexivity.
  - intros [k' b] Hin Hk'. simpl in Hk'. subst k'.
    apply elem_of_map_to_list in Hin. congruence.
Qed.

(** ** The load *)

Lemma LoadFromReader_records `{GoLib} header rows :
  LoadFromReader (Record_ header :: map Record_ rows)
  = inl {| byIATA :=
             foldl (loopBody (buildColIndex 0 header ∅)) ∅ rows |}.
Proof. simpl. apply readLoop_records. Qed.

Lemma LoadFromReader_inl `{GoLib} reader st :
  LoadFromReader reader = inl st →
  ∃ header rows,
    reader = Record_ header :: map Record_ rows
    ∧ byIATA st = foldl (loopBody (buildColIndex 0 header ∅)) ∅ rows.
Proof.
  destruct reader as [|[header|f] rest]; simpl; try discriminate.
  intros Hl. apply readLoop_inl in Hl as (rows & -> & Hst). eauto.
Qed.

Lemma LoadFromReader_skip `{GoLib} header pre rec post :
  parseRow (buildColIndex 0 header ∅) rec = None →
  LoadFromReader (Record_ header :: pre ++ Record_ rec :: post)
  = LoadFromReader (Record_ header :: pre ++ post).
Proof. intros Hskip. simpl. now apply readLoop_skip. Qed.

(** The [id] cell is missing when the header has no [id] column or the
    record stops before it. *)
Lemma rawCell_None colIndex rec col :
  rawCell colIndex rec col = None ↔
  colIndex !! col = None
  ∨ ∃ idx, colIndex !! col = Some idx ∧ (length rec ≤ idx)%nat.
Proof.
  unfold rawCell. destruct (colIndex !! col) as [idx|]; [|tauto].
  rewrite lookup_ge_None. split.
  - intros Hl. right. eauto.
  - intros [[=]|(idx' & [= <-] & Hl)]. exact Hl.
Qed.

Lemma loaded_origin `{GoLib} reader st k a :
  LoadFromReader reader = inl st →
  byIATA st !! k = Some a →
  ∃ header rows rec,
    reader = Record_ header :: map Record_ rows
    ∧ rec ∈ rows
    ∧ parseRow (buildColIndex 0 header ∅) rec = Some a
    ∧ IATACode a = k.
Proof.
  intros Hl Hk. apply LoadFromReader_inl in Hl as (header & rows & -> & Hst).
  rewrite Hst in Hk. apply foldl_origin in Hk as [Hk|(rec & ? & ? & ?)].
  - now rewrite lookup_empty in Hk.
  - exists header, rows, rec. auto.
Qed.

(** ** Lookup *)

Lemma caseVariant_empty s t :
  caseVariant s t = true → (s = EmptyString ↔ t = EmptyString).
Proof. destruct s, t; simpl; intros; split; congruence. Qed.

Lemma Store_LookupIATA_variant `{GoLib} s code code' :
  caseVariant code code' = true →
  Store_LookupIATA s code = Store_LookupIATA s code'.
Proof.
  intros Hv. destruct s as [st|]; [|reflexivity]. unfold Store_LookupIATA.
  pose proof (caseVariant_empty _ _ Hv) as He.
  apply caseVariant_upper in Hv.
  destruct code, code'; try reflexivity.
  - destruct He as [He _]. now specialize (He eq_refl).
  - destruct He as [_ He]. now specialize (He eq_refl).
  - now rewrite Hv.
Qed.

Lemma Store_LookupIATA_found `{GoLib} st code a :
  code ≠ EmptyString →
  byIATA st !! toUpperASCII code = Some a →
  Store_LookupIATA (Some st) code = (Some a, true).
Proof.
  intros Hne Hk. unfold Store_LookupIATA.
  destruct code; [contradiction|]. now rewrite Hk.
Qed.

Lemma ensureDefaultStore_done `{GoLib} w g :
  loadOnce g = true →
  ensureDefaultStore w g = (g, (defaultStore g, loadErr g)).
Proof. unfold ensureDefaultStore. now intros ->. Qed.

Lemma LookupIATA_failed `{GoLib} w g code :
  loadOnce g = true → loadErr g ≠ None →
  LookupIATA w g code = (g, (None, false)).
Proof.
  intros Hdone Herr. unfold LookupIATA.
  rewrite ensureDefaultStore_done by assumption.
  destruct (loadErr g); [reflexivity|contradiction].
Qed.

Lemma lookups_failed `{GoLib} g calls :
  loadOnce g = true → loadErr g ≠ None →
  lookups g calls = (map (λ _, (None, false)) calls, g).
Proof.
  intros Hdone Herr. induction calls as [|[w code] calls IH]; simpl;
    [reflexivity|].
  rewrite LookupIATA_failed by assumption. now rewrite IH.
Qed.

(** ** The truthy tokens *)



(** ** The instance [RefLib.lib] meets what is asked of Go's library *)




Lemma RefLib_upperLaw : @upperLaw RefLib.lib.
Proof. intros s _. apply mapBytes_upper_no_lower. Qed.

Lemma upper_cases c :
  Octet.upper c = c
  ∨ (Octet.isASCII c = true ∧ Octet.isASCII (Octet.upper c) = true).
Proof.
  destruct (Octet.isLower c) eqn:E; [right|left; now apply upper_fix].
  assert (Ha : Octet.isASCII c = true) by (revert E; octet).
  now rewrite upper_isASCII.
Qed.

Lemma space2_second a b : Octet.isASCII b = true → GoStrings.space2 a b = false.
Proof.
  unfold GoStrings.space2, Octet.isASCII. intros H. apply N.ltb_lt in H.
  assert (E1 : (Octet.val b =? 133) = false) by (apply N.eqb_neq; lia).
  assert (E2 : (Octet.val b =? 160) = false) by (apply N.eqb_neq; lia).
  rewrite E1, E2. apply andb_false_r.
Qed.

Lemma space3_second a b c :
  Octet.isASCII b = true → GoStrings.space3 a b c = false.
Proof.
  unfold GoStrings.space3, Octet.isASCII. intros H. apply N.ltb_lt in H.
  assert (E1 : (Octet.val b =? 154) = false) by (apply N.eqb_neq; lia).
  assert (E2 : (Octet.val b =? 128) = false) by (apply N.eqb_neq; lia).
  assert (E3 : (Octet.val b =? 129) = false) by (apply N.eqb_neq; lia).
  rewrite E1, E2, E3. now rewrite !andb_false_r.
Qed.

Lemma space3_third a b c :
  Octet.isASCII c = true → GoStrings.space3 a b c = false.
Proof.
  unfold GoStrings.space3, Octet.isASCII. intros H. apply N.ltb_lt in H.
  assert (E1 : (Octet.val c =? 128) = false) by (apply N.eqb_neq; lia).
  assert (E2 : (128 <=? Octet.val c) = false) by (apply N.leb_gt; lia).
  assert (E3 : (Octet.val c =? 168) = false) by (apply N.eqb_neq; lia).
  assert (E4 : (Octet.val c =? 169) = false) by (apply N.eqb_neq; lia).
  assert (E5 : (Octet.val c =? 175) = false) by (apply N.eqb_neq; lia).
  assert (E6 : (Octet.val c =? 159) = false) by (apply N.eqb_neq; lia).
  rewrite E1, E2, E3, E4, E5, E6. simpl. now rewrite !andb_false_r.
Qed.

Lemma space2_upper a b :
  GoStrings.space2 (Octet.upper a) (Octet.upper b) = GoStrings.space2 a b.
Proof.
  destruct (upper_cases a) as [->|[Ha Ha']];
    [|now rewrite !space2_first by assumption].
  destruct (upper_cases b) as [->|[Hb Hb']]; [reflexivity|].
  now rewrite !space2_second by assumption.
Qed.

Lemma space3_upper a b c :
  GoStrings.space3 (Octet.upper a) (Octet.upper b) (Octet.upper c)
  = GoStrings.space3 a b c.
Proof.
  destruct (upper_cases a) as [->|[Ha Ha']];
    [|now rewrite !space3_first by assumption].
  destruct (upper_cases b) as [->|[Hb Hb']];
    [|now rewrite !space3_second by assumption].
  destruct (upper_cases c) as [->|[Hc Hc']]; [reflexivity|].
  now rewrite !space3_third by assumption.
Qed.

Lemma starts_map_upper sp2 sp3 l :
  (∀ a b, sp2 (Octet.upper a) (Octet.upper b) = sp2 a b) →
  (∀ a b c, sp3 (Octet.upper a) (Octet.upper b) (Octet.upper c) = sp3 a b c) →
  startsWithSpace sp2 sp3 (map Octet.upper l) = startsWithSpace sp2 sp3 l.
Proof.
  intros H2 H3. destruct l as [|c0 [|c1 [|c2 r]]]; simpl;
    now rewrite ?upper_isSpace, ?H2, ?H3.
Qed.

Lemma RefLib_upperSpaceLaw : @upperSpaceLaw RefLib.lib.
Proof.
  intros s _ Hs. simpl. apply TrimSpace_fix_iff in Hs as [Hl Hr].
  apply TrimSpace_fix. rewrite list_of_mapBytes. split.
  - rewrite starts_map_upper; [exact Hl|apply space2_upper|apply space3_upper].
  - rewrite <- map_rev. rewrite starts_map_upper; [exact Hr| |].
    + intros a b. apply space2_upper.
    + intros a b c. apply space3_upper.
Qed.

Lemma withRange_not_syntax f :
  snd (RefLib.withRange f) ≠ Some ErrSyntax.
Proof. destruct f; discriminate. Qed.

Lemma decimalFloat_not_syntax neg d dp :
  snd (RefLib.decimalFloat neg d dp) ≠ Some ErrSyntax.
Proof.
  unfold RefLib.decimalFloat. destruct d; try discriminate.
  destruct (400 <? dp)%Z; [discriminate|].
  destruct (_ && _); [discriminate|].
  destruct (0 <=? dp)%Z.
  - destruct (_ * _)%Z; try discriminate. apply withRange_not_syntax.
  - destruct (SFdiv_core_binary _ _ _ _ _ _) as [[q e] loc].
    apply withRange_not_syntax.
Qed.

Lemma readExponent_cases neg d nfrac s :
  syntaxOrValue (RefLib.readExponent neg d nfrac s).
Proof.
  unfold RefLib.readExponent. destruct s as [|c r].
  { right. apply decimalFloat_not_syntax. }
  destruct (_ || _); [|now left].
  destruct (match r with EmptyString => _ | String _ _ => _ end) as [eneg digits].
  destruct (RefLib.readDigits digits 0 0) as [[e n] [|c' r']]; [|now left].
  destruct (n =? 0)%Z; [now left|right]. apply decimalFloat_not_syntax.
Qed.

Lemma readMantissa_cases neg s : syntaxOrValue (RefLib.readMantissa neg s).
Proof.
  unfold RefLib.readMantissa.
  destruct (RefLib.readDigits s 0 0) as [[d1 n1] [|c r]].
  { destruct (n1 =? 0)%Z; [now left|right]. apply decimalFloat_not_syntax. }
  destruct (Octet.val c =? 46).
  - destruct (RefLib.readDigits r d1 n1) as [[d n] rest'].
    destruct (n =? 0)%Z; [now left|apply readExponent_cases].
  - destruct (n1 =? 0)%Z; [now left|apply readExponent_cases].
Qed.

Lemma refParseFloat_cases s : syntaxOrValue (RefLib.refParseFloat s).
Proof.
  unfold RefLib.refParseFloat. destruct s as [|c r]; [now left|].
  destruct (_ || _)%bool; [right; discriminate|].
  destruct (_ && _)%bool; [right; discriminate|].
  apply readMantissa_cases.
Qed.

Lemma RefLib_floatSyntaxLaw : @floatSyntaxLaw RefLib.lib.
Proof.
  split; [reflexivity|]. intros s v Hs. simpl in Hs.
  destruct (refParseFloat_cases s) as [E|E].
  - rewrite E in Hs. now injection Hs as <-.
  - rewrite Hs in E. now contradiction E.
Qed.

Lemma withRange_infinity f : rangeIsInfinity (RefLib.withRange f).
Proof. destruct f; simpl; try discriminate. intros _. eauto. Qed.

Lemma decimalFloat_infinity neg d dp :
  rangeIsInfinity (RefLib.decimalFloat neg d dp).
Proof.
  unfold RefLib.decimalFloat. destruct d; try discriminate.
  destruct (400 <? dp)%Z; [intros _; simpl; eauto|].
  destruct (_ && _); [discriminate|].
  destruct (0 <=? dp)%Z.
  - destruct (_ * _)%Z; try discriminate. apply withRange_infinity.
  - destruct (SFdiv_core_binary _ _ _ _ _ _) as [[q e] loc].
    apply withRange_infinity.
Qed.

Lemma readExponent_infinity neg d nfrac s :
  rangeIsInfinity (RefLib.readExponent neg d nfrac s).
Proof.
  unfold RefLib.readExponent. destruct s as [|c r].
  { apply decimalFloat_infinity. }
  destruct (_ || _); [|discriminate].
  destruct (match r with EmptyString => _ | String _ _ => _ end) as [eneg digits].
  destruct (RefLib.readDigits digits 0 0) as [[e n] [|c' r']]; [|discriminate].
  destruct (n =? 0)%Z; [discriminate|]. apply decimalFloat_infinity.
Qed.

Lemma readMantissa_infinity neg s :
  rangeIsInfinity (RefLib.readMantissa neg s).
Proof.
  unfold RefLib.readMantissa.
  destruct (RefLib.readDigits s 0 0) as [[d1 n1] [|c r]].
  { destruct (n1 =? 0)%Z; [discriminate|]. apply decimalFloat_infinity. }
  destruct (Octet.val c =? 46).
  - destruct (RefLib.readDigits r d1 n1) as [[d n] rest'].
    destruct (n =? 0)%Z; [discriminate|apply readExponent_infinity].
  - destruct (n1 =? 0)%Z; [discriminate|apply readExponent_infinity].
Qed.

Lemma RefLib_floatRangeLaw : @floatRangeLaw RefLib.lib.
Proof.
  intros s v Hs. simpl in Hs.
  assert (Hr : rangeIsInfinity (RefLib.refParseFloat s)).
  { unfold RefLib.refParseFloat. destruct s as [|c r]; [discriminate|].
    destruct (_ || _)%bool; [discriminate|].
    destruct (_ && _)%bool; [discriminate|].
    apply readMantissa_infinity. }
  unfold rangeIsInfinity in Hr. rewrite Hs in Hr. now apply Hr.
Qed.

(** The first accepted record with a code, when a record of the list is
    accepted with it: the first one before that record if there is one,
    that record's airport if not. *)
Lemma firstAccepted_at `{GoLib} colIndex pre rec post a :
  parseRow colIndex rec = Some a →
  firstAccepted colIndex (IATACode a) (pre ++ rec :: post)
  = Some (default a (firstAccepted colIndex (IATACode a) pre)).
Proof.
  intros Hrec. induction pre as [|r pre IH]; simpl.
  - rewrite Hrec. now rewrite decide_True.
  - destruct (parseRow colIndex r) as [b|]; [|exact IH].
    destruct (decide (IATACode b = IATACode a)); [reflexivity|exact IH].
Qed.

(** * The claims *)

(** C1. When several accepted rows have the same IATA code, the index has
    one entry for the code and it is the airport of the first of them:
    whatever rows follow the first accepted row with a code, that row's
    airport is the entry of the code, and the only one.  So for the header
    [id,iata_code] and the rows [1,AAA] and [2,AAA] the index has one entry
    for "AAA", and no other, and its [ID] is 1. *)
Theorem C1_first_row_wins `{GoLib} :
  (∀ (header : list string) (pre post : list (list string))
     (rec : list string) (a : Airport),
     let colIndex := buildColIndex 0 header ∅ in
     parseRow colIndex rec = Some a →
     Forall (λ r, ∀ b, parseRow colIndex r = Some b →
                       IATACode b ≠ IATACode a) pre →
     ∃ st,
       LoadFromReader (Record_ header :: map Record_ (pre ++ rec :: post))
       = inl st
       ∧ byIATA st !! IATACode a = Some a
       ∧ entriesFor (IATACode a) (byIATA st) = [(IATACode a, a)])
  ∧ (∃ st a,
       LoadFromReader
         [Record_ ["id"; "iata_code"]; Record_ ["1"; "AAA"];
          Record_ ["2"; "AAA"]] = inl st
       ∧ entriesFor "AAA" (byIATA st) = [("AAA", a)]
       ∧ ID a = 1%Z
       ∧ map_to_list (byIATA st) = [("AAA", a)]).
Proof.
  assert (Hgen : ∀ header pre post rec a,
    parseRow (buildColIndex 0 header ∅) rec = Some a →
    Forall (λ r, ∀ b, parseRow (buildColIndex 0 header ∅) r = Some b →
                      IATACode b ≠ IATACode a) pre →
    ∃ st,
      LoadFromReader (Record_ header :: map Record_ (pre ++ rec :: post))
      = inl st
      ∧ byIATA st !! IATACode a = Some a
      ∧ entriesFor (IATACode a) (byIATA st) = [(IATACode a, a)]).
  { intros header pre post rec a Hrec Hpre.
    eexists. split; [apply LoadFromReader_records|]. simpl.
    assert (Hl : foldl (loopBody (buildColIndex 0 header ∅)) ∅
                   (pre ++ rec :: post) !! IATACode a = Some a).
    { rewrite foldl_lookup, lookup_empty. now apply firstAccepted_app. }
    split; [exact Hl|now apply entriesFor_lookup]. }
  split; [exact Hgen|].
  assert (Hp : ∃ a, parseRow (buildColIndex 0 ["id"; "iata_code"] ∅)
                      ["1"; "AAA"] = Some a
                    ∧ ID a = 1%Z ∧ IATACode a = "AAA").
  { eexists. split; [reflexivity|]. split; reflexivity. }
  destruct Hp as (a & Hp & Hid & Hcode).
  destruct (Hgen ["id"; "iata_code"] [] [["2"; "AAA"]] ["1"; "AAA"] a Hp
              (Forall_nil_2 _)) as (st & Hst & Hl & He).
  rewrite Hcode in Hl, He.
  exists st, a. split; [exact Hst|]. split; [exact He|]. split; [exact Hid|].
  apply LoadFromReader_inl in Hst as (header & rows & Hr & Hm).
  injection Hr as <- Hrows.
  destruct rows as [|r1 [|r2 [|r3 rows]]]; try discriminate.
  injection Hrows as <- <-.
  remember (buildColIndex 0 ["id"; "iata_code"] ∅) as ci.
  assert (Hone : byIATA st = {[ "AAA" := a ]}).
  { rewrite Hm. cbn [foldl]. unfold loopBody at 2. rewrite Hp.
    assert (Hfirst : insertFirst ∅ a = {[ "AAA" := a ]}).
    { unfold insertFirst. rewrite lookup_empty, Hcode. apply insert_empty. }
    rewrite Hfirst. unfold loopBody.
    destruct (parseRow ci ["2"; "AAA"]) as [b|] eqn:Hb; [|reflexivity].
    assert (Hcb : IATACode b = "AAA").
    { apply parseRow_Some in Hb. destruct Hb as (_ & _ & -> & _).
      subst ci. reflexivity. }
    unfold insertFirst. now rewrite Hcb, lookup_singleton_eq. }
  rewrite Hone. apply map_to_list_singleton.
Qed.

Lemma C1_first_row_wins_witness :
  ∃ st,
    @LoadFromReader RefLib.lib
      [Record_ ["id"; "iata_code"]; Record_ ["1"; "AAA"];
       Record_ ["2"; "AAA"]] = inl st
    ∧ byIATA st !! "AAA" = Some Sample.airportAAA
    ∧ entriesFor "AAA" (byIATA st) = [("AAA", Sample.airportAAA)]
    ∧ ID Sample.airportAAA = 1%Z.
Proof.
  assert (H1 : @parseRow RefLib.lib (buildColIndex 0 Sample.idCode ∅)
                 ["1"; "AAA"] = Some Sample.airportAAA) by reflexivity.
  destruct (proj1 (@C1_first_row_wins RefLib.lib) Sample.idCode []
              [["2"; "AAA"]] ["1"; "AAA"] Sample.airportAAA H1
              (Forall_nil_2 _))
    as (st & Hst & Hl & He).
  exists st. repeat split; [exact Hst|exact Hl|exact He].
Defined.

(** C2. A row whose [id] cell is missing (no such column, or the record is
    too short), empty once trimmed, or refused by the integer parser is
    skipped whole: the loop body makes no airport of it and leaves the map
    as it is, and the load ends as it does without the row, with the same
    store or the same error. *)
Theorem C2_bad_id_row_skipped `{GoLib} (header : list string)
    (pre post : Reader) (rec : list string) :
  let colIndex := buildColIndex 0 header ∅ in
  badId colIndex rec →
  parseRow colIndex rec = None
  ∧ (∀ m, loopBody colIndex m rec = m)
  ∧ LoadFromReader (Record_ header :: pre ++ Record_ rec :: post)
    = LoadFromReader (Record_ header :: pre ++ post).
Proof.
  intros colIndex Hbad.
  assert (Hskip : parseRow colIndex rec = None)
    by (apply parseRow_None; now left).
  split; [exact Hskip|]. split.
  - intros m. now apply loopBody_skip.
  - now apply LoadFromReader_skip.
Qed.

Lemma C2_bad_id_row_skipped_witness :
  @parseRow RefLib.lib (buildColIndex 0 Sample.idCode ∅) ["x1"; "AAA"] = None
  ∧ @LoadFromReader RefLib.lib
      (Record_ Sample.idCode
       :: [Record_ ["1"; "AAA"]] ++ Record_ ["x1"; "AAA"]
       :: [Record_ ["3"; "CCC"]])
    = @LoadFromReader RefLib.lib
      (Record_ Sample.idCode
       :: [Record_ ["1"; "AAA"]] ++ [Record_ ["3"; "CCC"]]).
Proof.
  assert (Hbad : badId (buildColIndex 0 Sample.idCode ∅) ["x1"; "AAA"])
    by (vm_compute; right; discriminate).
  destruct (@C2_bad_id_row_skipped RefLib.lib Sample.idCode
              [Record_ ["1"; "AAA"]] [Record_ ["3"; "CCC"]] ["x1"; "AAA"]
              Hbad) as (Hp & _ & Hl).
  split; [exact Hp|exact Hl].
Defined.

(** C3. A row whose [iata_code] cell is empty once trimmed and put in upper
    case, or is missing, is left out of the index: the load ends as it does
    without the row.  And every airport of a loaded index has a code that is
    not empty. *)
Theorem C3_empty_code_row_excluded `{GoLib} :
  (∀ (header : list string) (pre post : Reader) (rec : list string),
     let colIndex := buildColIndex 0 header ∅ in
     normalizedIATA colIndex rec = EmptyString →
     parseRow colIndex rec = None
     ∧ (∀ m, loopBody colIndex m rec = m)
     ∧ LoadFromReader (Record_ header :: pre ++ Record_ rec :: post)
       = LoadFromReader (Record_ header :: pre ++ post))
  ∧ (∀ (reader : Reader) (st : Store) (k : string) (a : Airport),
       LoadFromReader reader = inl st →
       byIATA st !! k = Some a →
       IATACode a ≠ EmptyString ∧ k ≠ EmptyString).
Proof.
  split.
  - intros header pre post rec colIndex Hempty.
    assert (Hskip : parseRow colIndex rec = None)
      by (apply parseRow_None; now right).
    split; [exact Hskip|]. split.
    + intros m. now apply loopBody_skip.
    + now apply LoadFromReader_skip.
  - intros reader st k a Hl Hk.
    destruct (loaded_origin _ _ _ _ Hl Hk) as (header & rows & rec & _ & _ & Hp & <-).
    apply parseRow_Some in Hp. tauto.
Qed.

Lemma C3_empty_code_row_excluded_witness :
  @parseRow RefLib.lib (buildColIndex 0 Sample.idCode ∅) ["2"; "  "] = None
  ∧ @LoadFromReader RefLib.lib
      (Record_ Sample.idCode
       :: [Record_ ["1"; "AAA"]] ++ Record_ ["2"; "  "]
       :: [Record_ ["3"; "CCC"]])
    = @LoadFromReader RefLib.lib
      (Record_ Sample.idCode
       :: [Record_ ["1"; "AAA"]] ++ [Record_ ["3"; "CCC"]]).
Proof.
  assert (He : @normalizedIATA RefLib.lib (buildColIndex 0 Sample.idCode ∅)
                 ["2"; "  "] = EmptyString) by reflexivity.
  destruct (proj1 (@C3_empty_code_row_excluded RefLib.lib) Sample.idCode
              [Record_ ["1"; "AAA"]] [Record_ ["3"; "CCC"]] ["2"; "  "]
              He) as (Hp & _ & Hl).
  split; [exact Hp|exact Hl].
Defined.

(** C4. The load fails, and returns no store, exactly when the header
    cannot be read or a read after the header fails otherwise than by the
    end of the input; it returns a store exactly when neither happens.  In
    particular the cells of the rows that are read never make it fail. *)
Theorem C4_load_fails_iff `{GoLib} (reader : Reader) :
  ((∃ e, LoadFromReader reader = inr e)
   ↔ headerUnreadable reader ∨ dataReadFails reader)
  ∧ ((∃ st, LoadFromReader reader = inl st)
     ↔ ¬ (headerUnreadable reader ∨ dataReadFails reader))
  ∧ (∀ (header : list string) (rows : list (list string)),
       ∃ st, LoadFromReader (Record_ header :: map Record_ rows) = inl st).
Proof.
  assert (Herr : (∃ e, LoadFromReader reader = inr e)
                 ↔ headerUnreadable reader ∨ dataReadFails reader).
  { unfold headerUnreadable, dataReadFails.
    destruct reader as [|[header|f] rest]; simpl.
    - split; [now left|eauto].
    - rewrite readLoop_error. split; [now right|].
      intros [Hh|Hd]; [discriminate|exact Hd].
    - split; [now left|eauto]. }
  split; [exact Herr|]. split.
  - rewrite <- Herr. destruct (LoadFromReader reader) as [st|e].
    + split; [intros _ [e [=]]|eauto].
    + split; [intros [st [=]]|intros Hn; exfalso; eauto].
  - intros header rows. eexists. apply LoadFromReader_records.
Qed.

(** C5. Lookup does not see the case of ASCII letters: two queries that
    differ in it only have the same result, on a store and through the
    package function; an airport stored under "JFK" is found by "jfk",
    "Jfk" and "JFK". *)
Theorem C5_lookup_ignores_ascii_case `{GoLib} :
  (∀ (s : option Store) (code code' : string),
     caseVariant code code' = true →
     Store_LookupIATA s code = Store_LookupIATA s code')
  ∧ (∀ (w : World) (g : Globals) (code code' : string),
       caseVariant code code' = true →
       LookupIATA w g code = LookupIATA w g code')
  ∧ (∀ (st : Store) (a : Airport),
       byIATA st !! "JFK" = Some a →
       Store_LookupIATA (Some st) "jfk" = (Some a, true)
       ∧ Store_LookupIATA (Some st) "Jfk" = (Some a, true)
       ∧ Store_LookupIATA (Some st) "JFK" = (Some a, true)).
Proof.
  split; [|split].
  - intros s code code'. apply Store_LookupIATA_variant.
  - intros w g code code' Hv. unfold LookupIATA.
    destruct (ensureDefaultStore w g) as [g' [store [e|]]]; [reflexivity|].
    now rewrite (Store_LookupIATA_variant store _ _ Hv).
  - intros st a Hk.
    repeat split; (apply Store_LookupIATA_found; [discriminate|exact Hk]).
Qed.

Lemma C5_lookup_ignores_ascii_case_witness :
  ∃ st,
    @LoadFromReader RefLib.lib
      [Record_ Sample.nameHeader; Record_ Sample.rowJFK] = inl st
    ∧ Store_LookupIATA (Some st) "jfk" = (Some Sample.airportJFK, true)
    ∧ Store_LookupIATA (Some st) "Jfk" = Store_LookupIATA (Some st) "jfk"
    ∧ Name Sample.airportJFK = "John F Kennedy".
Proof.
  pose proof (@LoadFromReader_records RefLib.lib Sample.nameHeader
                [Sample.rowJFK]) as Hload.
  eexists. split; [exact Hload|].
  destruct (@C5_lookup_ignores_ascii_case RefLib.lib) as (Hvar & _ & Hjfk).
  split; [|split; [|reflexivity]].
  - apply (Hjfk _ Sample.airportJFK). reflexivity.
  - apply Hvar. reflexivity.
Defined.

(** C6. In the airport of an accepted row, an empty [elevation_ft] cell
    gives no elevation, the cell "0" gives the elevation 0, and a cell that
    is not empty and not a decimal integer, or that the integer parser
    refuses for any reason, gives no elevation; an elevation that is there
    is the parsed cell.  No elevation and the elevation 0 are different
    values.  The same holds of [score].  Whether a row is accepted depends
    on its [id] and its code only. *)
Theorem C6_optional_numbers `{GoLib} :
  (∀ (colIndex : gmap string nat) (rec : list string) (a : Airport),
     parseRow colIndex rec = Some a →
     optionalField (get colIndex rec "elevation_ft") (ElevationFt a)
     ∧ optionalField (get colIndex rec "score") (Score a))
  ∧ (None : option Z) ≠ Some 0%Z
  ∧ (∀ (colIndex : gmap string nat) (rec : list string),
       is_Some (parseRow colIndex rec)
       ↔ ¬ badId colIndex rec
         ∧ normalizedIATA colIndex rec ≠ EmptyString).
Proof.
  split; [|split; [discriminate|apply @parseRow_is_Some]].
  intros colIndex rec a Hp. apply parseRow_Some in Hp.
  destruct Hp as (_ & _ & _ & _ & _ & _ & -> & -> & _).
  split; apply optInt_optionalField.
Qed.

Lemma C6_optional_numbers_witness :
  ElevationFt Sample.airportZero = Some 0%Z
  ∧ Score Sample.airportZero = None.
Proof.
  assert (Hp : @parseRow RefLib.lib (buildColIndex 0 Sample.numHeader ∅)
                 Sample.rowZero = Some Sample.airportZero) by reflexivity.
  destruct (proj1 (@C6_optional_numbers RefLib.lib) _ _ _ Hp)
    as [(_ & Hzero & _) (Hempty & _)].
  split; [apply Hzero|apply Hempty]; reflexivity.
Defined.

(** C7. A lookup that misses returns no airport and [false], never an
    error, and is defined on every store pointer and every string: the empty
    string misses on every store and through the package function, every
    string misses on the [nil] store, and once the default load has failed
    every call of the package function misses, whatever the files have
    become. *)
Theorem C7_lookup_miss `{GoLib} :
  (∀ (s : option Store), Store_LookupIATA s EmptyString = (None, false))
  ∧ (∀ (code : string), Store_LookupIATA None code = (None, false))
  ∧ (∀ (w : World) (g : Globals),
       snd (LookupIATA w g EmptyString) = (None, false))
  ∧ (∀ (w : World) (g : Globals) (code : string),
       loadOnce g = true → loadErr g ≠ None →
       LookupIATA w g code = (g, (None, false)))
  ∧ (∀ (w : World) (e : error) (code : string)
       (calls : list (World * string)),
       LoadFromFile w (defaultCSVPath w) = inr e →
       ∃ g, LookupIATA w initialGlobals code = (g, (None, false))
            ∧ lookups g calls = (map (λ _, (None, false)) calls, g)).
Proof.
  split; [|split; [|split; [|split]]].
  - intros [st|]; reflexivity.
  - reflexivity.
  - intros w g. unfold LookupIATA.
    destruct (ensureDefaultStore w g) as [g' [[st|] [e|]]]; reflexivity.
  - intros w g code. apply LookupIATA_failed.
  - intros w e code calls Hfail. unfold LookupIATA, ensureDefaultStore.
    simpl. rewrite Hfail. simpl. eexists. split; [reflexivity|].
    now apply lookups_failed.
Qed.

Lemma C7_lookup_miss_witness :
  ∃ g,
    @LookupIATA RefLib.lib Sample.noFiles initialGlobals "JFK"
    = (g, (None, false))
    ∧ lookups g [(Sample.noFiles, "AAA"); (Sample.noFiles, "jfk")]
      = ([(None, false); (None, false)], g).
Proof.
  apply (proj2 (proj2 (proj2 (proj2 (@C7_lookup_miss RefLib.lib))))
           Sample.noFiles
           (Errorf "open airports csv" (OpenFailed "data/airports-latest.csv"))).
  reflexivity.
Defined.



(** C9. A row whose [id] is read and whose code is not empty is accepted
    whatever its coordinate cells hold: the load succeeds as far as this
    row goes, and the entry of the row's code is the row's airport, or the
    airport of the first accepted row before it that has the same code.
    Each coordinate of the airport is [0.0] when the row has no such cell,
    and else the value the float parser returns for the trimmed cell, error
    or not: [0.0] when the cell is empty or not a number, and an infinity
    when the cell is a number beyond the float64 range. *)
Theorem C9_coordinates `{GoLib} (header : list string)
    (pre post : list (list string)) (rec : list string) :
  let colIndex := buildColIndex 0 header ∅ in
  floatSyntaxLaw → floatRangeLaw →
  ¬ badId colIndex rec →
  normalizedIATA colIndex rec ≠ EmptyString →
  ∃ a st,
    parseRow colIndex rec = Some a
    ∧ coordinateOf (rawCell colIndex rec "latitude_deg") (LatitudeDeg a)
    ∧ coordinateOf (rawCell colIndex rec "longitude_deg") (LongitudeDeg a)
    ∧ LoadFromReader (Record_ header :: map Record_ (pre ++ rec :: post))
      = inl st
    ∧ byIATA st !! IATACode a
      = Some (default a (firstAccepted colIndex (IATACode a) pre)).
Proof.
  intros colIndex [Hempty Hsyntax] Hrange Hid Hcode.
  destruct (proj2 (parseRow_is_Some colIndex rec) (conj Hid Hcode))
    as [a Hp].
  exists a. eexists. split; [exact Hp|].
  assert (Hcoord : ∀ cell, coordinateField cell (fst (ParseFloat cell))).
  { intros cell. split; [reflexivity|].
    destruct (ParseFloat cell) as [v e] eqn:E. simpl. repeat split.
    - intros ->. rewrite Hempty in E. now injection E as <- _.
    - intros ->. now apply (Hsyntax cell).
    - intros ->. now apply (Hrange cell). }
  assert (Hraw : ∀ col, coordinateOf (rawCell colIndex rec col)
                          (fst (ParseFloat (get colIndex rec col)))).
  { intros col. rewrite get_rawCell.
    destruct (rawCell colIndex rec col) as [cell|]; simpl; [apply Hcoord|].
    now rewrite Hempty. }
  pose proof (parseRow_Some _ _ _ Hp) as (_ & _ & _ & _ & -> & -> & _).
  split; [apply Hraw|]. split; [apply Hraw|].
  split; [apply LoadFromReader_records|]. simpl.
  rewrite foldl_lookup, lookup_empty. now apply firstAccepted_at.
Qed.

Lemma C9_coordinates_witness :
  ∃ a st,
    @LoadFromReader RefLib.lib
      [Record_ Sample.geoHeader; Record_ Sample.rowGeo;
       Record_ Sample.rowFar] = inl st
    ∧ byIATA st !! "BBB" = Some a
    ∧ LatitudeDeg a = float64_zero
    ∧ ∃ neg, LongitudeDeg a = S754_infinity neg.
Proof.
  assert (Hid : ¬ badId (buildColIndex 0 Sample.geoHeader ∅) Sample.rowFar).
  { intros Hbad. vm_compute in Hbad.
    destruct Hbad as [Hbad|Hbad]; [discriminate|now apply Hbad]. }
  assert (E : @normalizedIATA RefLib.lib
                (buildColIndex 0 Sample.geoHeader ∅) Sample.rowFar = "BBB")
    by reflexivity.
  assert (Hcode : @normalizedIATA RefLib.lib
                    (buildColIndex 0 Sample.geoHeader ∅) Sample.rowFar
                  ≠ EmptyString)
    by (rewrite E; discriminate).
  destruct (@C9_coordinates RefLib.lib Sample.geoHeader [Sample.rowGeo] []
              Sample.rowFar RefLib_floatSyntaxLaw RefLib_floatRangeLaw
              Hid Hcode)
    as (a & st & Hp & Hlat & Hlon & Hload & Hentry).
  assert (Rlat : rawCell (buildColIndex 0 Sample.geoHeader ∅) Sample.rowFar
                   "latitude_deg" = Some "north") by reflexivity.
  assert (Rlon : rawCell (buildColIndex 0 Sample.geoHeader ∅) Sample.rowFar
                   "longitude_deg" = Some "1e999") by reflexivity.
  rewrite Rlat in Hlat. rewrite Rlon in Hlon.
  destruct Hlat as (_ & _ & Hlat & _). destruct Hlon as (_ & _ & _ & Hlon).
  assert (Hk : IATACode a = "BBB").
  { apply parseRow_Some in Hp. destruct Hp as (_ & _ & -> & _).
    rewrite <- normalizedIATA_get. exact E. }
  exists a, st. split; [exact Hload|].
  split; [rewrite Hk in Hentry; exact Hentry|].
  split; [apply Hlat|apply Hlon]; reflexivity.
Defined.

(** The latitude cell [1e999] is a number beyond the float64 range:
    [ParseFloat] returns [+Inf] with [ErrRange] for it, the loader drops the
    error and stores the infinity, and the row is in the index.  So a cell
    that [ParseFloat] refuses does not always give [0.0]. *)
Lemma C9_out_of_range_counterexample :
  ∃ st a,
    @LoadFromReader RefLib.lib
      [Record_ Sample.geoHeader; Record_ Sample.rowHigh] = inl st
    ∧ byIATA st !! "AAA" = Some a
    ∧ rawCell (buildColIndex 0 Sample.geoHeader ∅) Sample.rowHigh
        "latitude_deg" = Some "1e999"
    ∧ @ParseFloat RefLib.lib "1e999" = (S754_infinity false, Some ErrRange)
    ∧ LatitudeDeg a = S754_infinity false
    ∧ ¬ @zeroOnParseFailure RefLib.lib "1e999" (LatitudeDeg a).
Proof.
  eexists. eexists. split; [reflexivity|]. split; [reflexivity|].
  split; [reflexivity|]. split; [reflexivity|]. split; [reflexivity|].
  intros Hzero. discriminate Hzero. right. discriminate.
Qed.

(** C10. In a loaded store every airport is stored under its own code,
    and that code is not empty, has no lower-case ASCII letter and no white
    space at either end; so looking an airport's own code up finds that
    airport. *)
Theorem C10_key_consistency `{GoLib} (reader : Reader) (st : Store)
    (k : string) (a : Airport) :
  upperLaw → upperSpaceLaw →
  LoadFromReader reader = inl st →
  byIATA st !! k = Some a →
  IATACode a = k
  ∧ k ≠ EmptyString
  ∧ anyByte Octet.isLower k = false
  ∧ GoStrings.TrimSpace k = k
  ∧ Store_LookupIATA (Some st) (IATACode a) = (Some a, true).
Proof.
  intros Hupper Hspace Hl Hk.
  destruct (loaded_origin _ _ _ _ Hl Hk)
    as (header & rows & rec & _ & _ & Hp & Hcode).
  apply parseRow_Some in Hp.
  destruct Hp as (_ & _ & Hnorm & Hne & _).
  rewrite <- normalizedIATA_get in Hnorm.
  assert (Hlow : anyByte Octet.isLower (IATACode a) = false)
    by (rewrite Hnorm; now apply ToUpper_no_lower).
  assert (Htrim : GoStrings.TrimSpace (IATACode a) = IATACode a)
    by (rewrite Hnorm; apply ToUpper_trimmed;
        [assumption|apply TrimSpace_idem]).
  subst k. repeat split; try assumption.
  apply Store_LookupIATA_found; [assumption|].
  unfold toUpperASCII. now rewrite mapBytes_upper_fix.
Qed.

Lemma C10_key_consistency_witness :
  ∃ st,
    @LoadFromReader RefLib.lib
      [Record_ Sample.nameHeader; Record_ Sample.rowJFK] = inl st
    ∧ IATACode Sample.airportJFK = "JFK"
    ∧ GoStrings.TrimSpace "JFK" = "JFK"
    ∧ Store_LookupIATA (Some st) (IATACode Sample.airportJFK)
      = (Some Sample.airportJFK, true).
Proof.
  pose proof (@LoadFromReader_records RefLib.lib Sample.nameHeader
                [Sample.rowJFK]) as Hload.
  eexists. split; [exact Hload|].
  assert (Hk : byIATA {| byIATA :=
                 foldl (loopBody (buildColIndex 0 Sample.nameHeader ∅)) ∅
                   [Sample.rowJFK] |} !! "JFK" = Some Sample.airportJFK)
    by reflexivity.
  destruct (@C10_key_consistency RefLib.lib _ _ _ _ RefLib_upperLaw
              RefLib_upperSpaceLaw Hload Hk) as (Hc & _ & _ & Ht & Hfind).
  split; [exact Hc|]. split; [exact Ht|exact Hfind].
Defined.

(** * Further properties of the loader and the lookup *)

Lemma mapBytes_length f s : String.length (mapBytes f s) = String.length s.
Proof. induction s as [|c s IH]; simpl; [reflexivity|]. now rewrite IH. Qed.

Lemma mapBytes_upper_fix_inv s :
  mapBytes Octet.upper s = s → anyByte Octet.isLower s = false.
Proof. intros <-. apply mapBytes_upper_no_lower. Qed.

(** X1. [toUpperASCII] keeps the length of a string, does nothing when
    applied a second time, leaves no lower-case ASCII letter, and changes a
    string only if it has one. *)
Theorem toUpperASCII_shape (s : string) :
  String.length (toUpperASCII s) = String.length s
  ∧ toUpperASCII (toUpperASCII s) = toUpperASCII s
  ∧ anyByte Octet.isLower (toUpperASCII s) = false
  ∧ (toUpperASCII s = s ↔ anyByte Octet.isLower s = false).
Proof.
  unfold toUpperASCII. split; [apply mapBytes_length|].
  split; [apply mapBytes_upper_fix, mapBytes_upper_no_lower|].
  split; [apply mapBytes_upper_no_lower|].
  split; [apply mapBytes_upper_fix_inv|apply mapBytes_upper_fix].
Qed.

Lemma firstAccepted_exists `{GoLib} colIndex rows rec a :
  rec ∈ rows → parseRow colIndex rec = Some a →
  ∃ b, firstAccepted colIndex (IATACode a) rows = Some b
       ∧ IATACode b = IATACode a.
Proof.
  induction rows as [|r rows IH]; intros Hin Hp; [inversion Hin|].
  simpl. destruct (parseRow colIndex r) as [b|] eqn:Hb.
  - destruct (decide (IATACode b = IATACode a)) as [Hc|Hc]; [eauto|].
    apply elem_of_cons in Hin as [->|Hin]; [|auto].
    rewrite Hp in Hb. injection Hb as <-. contradiction.
  - apply elem_of_cons in Hin as [->|Hin]; [congruence|auto].
Qed.

(** X2. Round trip from a row to a lookup: when a row of the input is
    accepted and its trimmed [iata_code] cell is ASCII, looking that text up
    in the loaded store, in whatever case it was written, finds an airport
    with the row's code. *)
Theorem cell_text_finds_code `{GoLib} (header : list string)
    (rows : list (list string)) (rec : list string) (a : Airport) :
  let colIndex := buildColIndex 0 header ∅ in
  rec ∈ rows →
  parseRow colIndex rec = Some a →
  allBytes Octet.isASCII (get colIndex rec "iata_code") = true →
  ∃ st b,
    LoadFromReader (Record_ header :: map Record_ rows) = inl st
    ∧ Store_LookupIATA (Some st) (get colIndex rec "iata_code")
      = (Some b, true)
    ∧ IATACode b = IATACode a.
Proof.
  intros colIndex Hin Hp Hascii.
  destruct (firstAccepted_exists _ _ _ _ Hin Hp) as (b & Hb & Hcode).
  eexists _, b. split; [apply LoadFromReader_records|]. split; [|exact Hcode].
  pose proof (parseRow_Some _ _ _ Hp) as (_ & _ & Hnorm & Hne & _).
  rewrite <- normalizedIATA_get, get_trimmed in Hnorm.
  rewrite ToUpper_ascii in Hnorm by assumption.
  apply Store_LookupIATA_found.
  - intros Hempty. apply Hne. fold colIndex in Hnorm.
    now rewrite Hnorm, Hempty.
  - simpl. fold colIndex. rewrite foldl_lookup, lookup_empty.
    fold colIndex in Hnorm. now rewrite <- Hnorm.
Qed.

Lemma cell_text_finds_code_witness :
  ∃ st b,
    @LoadFromReader RefLib.lib
      (Record_ Sample.nameHeader :: map Record_ [Sample.rowJFK]) = inl st
    ∧ Store_LookupIATA (Some st) "jfk" = (Some b, true)
    ∧ IATACode b = "JFK".
Proof.
  assert (Hp : @parseRow RefLib.lib (buildColIndex 0 Sample.nameHeader ∅)
                 Sample.rowJFK = Some Sample.airportJFK) by reflexivity.
  assert (Hin : Sample.rowJFK ∈ [Sample.rowJFK]) by apply list_elem_of_here.
  destruct (@cell_text_finds_code RefLib.lib Sample.nameHeader
              [Sample.rowJFK] Sample.rowJFK Sample.airportJFK Hin Hp eq_refl)
    as (st & b & Hl & Hf & Hc).
  exists st, b. split; [exact Hl|]. split; [exact Hf|exact Hc].
Defined.

Lemma loaded_key_trimmed `{GoLib} reader st k a :
  upperSpaceLaw →
  LoadFromReader reader = inl st →
  byIATA st !! k = Some a →
  GoStrings.TrimSpace k = k.
Proof.
  intros Hspace Hl Hk.
  destruct (loaded_origin _ _ _ _ Hl Hk)
    as (header & rows & rec & _ & _ & Hp & <-).
  apply parseRow_Some in Hp. destruct Hp as (_ & _ & Hnorm & _).
  rewrite <- normalizedIATA_get in Hnorm. rewrite Hnorm.
  apply ToUpper_trimmed; [assumption|apply TrimSpace_idem].
Qed.

Lemma trimmed_map_upper_iff l : trimmed (map Octet.upper l) ↔ trimmed l.
Proof.
  unfold trimmed. rewrite <- map_rev.
  rewrite !starts_map_upper;
    [reflexivity|intros; apply space2_upper|intros; apply space3_upper
    |apply space2_upper|apply space3_upper].
Qed.

Lemma TrimSpace_toUpperASCII s :
  GoStrings.TrimSpace (toUpperASCII s) = toUpperASCII s
  ↔ GoStrings.TrimSpace s = s.
Proof.
  rewrite !TrimSpace_fix_iff. unfold toUpperASCII.
  rewrite list_of_mapBytes. apply trimmed_map_upper_iff.
Qed.

(** X3. The lookup does not trim its query while the loader trims every
    code: a query with white space at either end, one that [TrimSpace]
    would change, finds nothing in a loaded store. *)
Theorem untrimmed_query_misses `{GoLib} (reader : Reader) (st : Store)
    (code : string) :
  upperSpaceLaw →
  LoadFromReader reader = inl st →
  GoStrings.TrimSpace code ≠ code →
  Store_LookupIATA (Some st) code = (None, false).
Proof.
  intros Hspace Hl Hcode. unfold Store_LookupIATA.
  destruct code as [|c code']; [reflexivity|].
  destruct (byIATA st !! toUpperASCII (String c code')) as [a|] eqn:Hk;
    [|reflexivity].
  exfalso. apply Hcode. apply TrimSpace_toUpperASCII.
  exact (loaded_key_trimmed _ _ _ _ Hspace Hl Hk).
Qed.

Lemma untrimmed_query_misses_witness :
  ∃ st,
    @LoadFromReader RefLib.lib
      (Record_ Sample.nameHeader :: map Record_ [Sample.rowJFK]) = inl st
    ∧ Store_LookupIATA (Some st) " JFK" = (None, false)
    ∧ Store_LookupIATA (Some st) "JFK" = (Some Sample.airportJFK, true).
Proof.
  pose proof (@LoadFromReader_records RefLib.lib Sample.nameHeader
                [Sample.rowJFK]) as Hl.
  eexists. split; [exact Hl|]. split; [|reflexivity].
  apply (@untrimmed_query_misses RefLib.lib _ _ " JFK"
           RefLib_upperSpaceLaw Hl).
  vm_compute. discriminate.
Defined.

Lemma firstAccepted_None `{GoLib} colIndex k rows :
  firstAccepted colIndex k rows = None ↔
  ∀ rec a, rec ∈ rows → parseRow colIndex rec = Some a → IATACode a ≠ k.
Proof.
  split.
  - intros Hnone rec a Hin Hp Hk.
    destruct (firstAccepted_exists _ _ _ _ Hin Hp) as (b & Hb & _).
    rewrite Hk in Hb. congruence.
  - intros Hall. destruct (firstAccepted colIndex k rows) as [a|] eqn:Hf;
      [|reflexivity].
    apply firstAccepted_Some in Hf as (rec & Hin & Hp & Hk).
    now destruct (Hall rec a Hin Hp).
Qed.

Lemma insertFirst_size `{GoLib} m a :
  (size (insertFirst m a) <= S (size m))%nat.
Proof.
  unfold insertFirst. destruct (m !! IATACode a) eqn:E; [lia|].
  rewrite map_size_insert_None by assumption. lia.
Qed.

Lemma foldl_size `{GoLib} colIndex m rows :
  (size (foldl (loopBody colIndex) m rows) ≤ size m + length rows)%nat.
Proof.
  revert m. induction rows as [|r rows IH]; intros m; simpl; [lia|].
  specialize (IH (loopBody colIndex m r)).
  assert (Hstep : (size (loopBody colIndex m r) <= S (size m))%nat); [|lia].
  unfold loopBody. destruct (parseRow colIndex r); [apply insertFirst_size|lia].
Qed.

(** X4. The keys of a loaded store are the codes of the accepted rows and
    no others: a code has no entry exactly when no row of the input is
    accepted with it.  The store has at most as many entries as the input
    has rows. *)
Theorem loaded_keys `{GoLib} (header : list string)
    (rows : list (list string)) :
  let colIndex := buildColIndex 0 header ∅ in
  ∃ st,
    LoadFromReader (Record_ header :: map Record_ rows) = inl st
    ∧ (∀ k, byIATA st !! k = None
            ↔ ∀ rec a, rec ∈ rows → parseRow colIndex rec = Some a →
                       IATACode a ≠ k)
    ∧ (size (byIATA st) ≤ length rows)%nat.
Proof.
  intros colIndex. eexists. split; [apply LoadFromReader_records|].
  simpl. fold colIndex. split.
  - intros k. rewrite foldl_lookup, lookup_empty. apply firstAccepted_None.
  - pose proof (foldl_size colIndex ∅ rows) as Hs.
    now rewrite map_size_empty in Hs.
Qed.

Lemma firstAccepted_app_l `{GoLib} colIndex k rows more a :
  firstAccepted colIndex k rows = Some a →
  firstAccepted colIndex k (rows ++ more) = Some a.
Proof.
  induction rows as [|r rows IH]; simpl; [discriminate|].
  destruct (parseRow colIndex r) as [b|]; [|exact IH].
  destruct (decide (IATACode b = k)); [trivial|exact IH].
Qed.

(** X5. Rows added at the end of the input change no entry: the store of
    the shorter input is a part of the store of the longer one. *)
Theorem appended_rows_keep_entries `{GoLib} (header : list string)
    (rows more : list (list string)) :
  ∃ st st',
    LoadFromReader (Record_ header :: map Record_ rows) = inl st
    ∧ LoadFromReader (Record_ header :: map Record_ (rows ++ more)) = inl st'
    ∧ byIATA st ⊆ byIATA st'.
Proof.
  eexists _, _. split; [apply LoadFromReader_records|].
  split; [apply LoadFromReader_records|].
  simpl. apply map_subseteq_spec. intros k a.
  rewrite !foldl_lookup, !lookup_empty. apply firstAccepted_app_l.
Qed.

Lemma foldl_all_skipped `{GoLib} colIndex m rows :
  (∀ rec, rec ∈ rows → parseRow colIndex rec = None) →
  foldl (loopBody colIndex) m rows = m.
Proof.
  revert m. induction rows as [|r rows IH]; intros m Hall; simpl;
    [reflexivity|].
  rewrite loopBody_skip by (apply Hall; left).
  apply IH. intros rec Hin. apply Hall. now right.
Qed.

(** The column index holds, for a name, the last position where the header
    has it; for a name the header does not have, what the index held. *)
Lemma buildColIndex_lookup header : ∀ n m c i,
  buildColIndex n header m !! c = Some i ↔
  (∃ j, i = (n + j)%nat
        ∧ columnNames header !! j = Some c
        ∧ ∀ j', (j < j')%nat → columnNames header !! j' ≠ Some c)
  ∨ ((c ∉ columnNames header) ∧ m !! c = Some i).
Proof.
  unfold columnNames.
  induction header as [|col rest IH]; intros n m c i; simpl.
  - split.
    + intros Hm. right. split; [apply not_elem_of_nil|exact Hm].
    + intros [(j & _ & Hj & _)|[_ Hm]]; [discriminate|exact Hm].
  - rewrite IH. split.
    + intros [(j & -> & Hj & Hlast)|[Hnot Hm]].
      * left. exists (S j). split; [lia|]. split; [exact Hj|].
        intros [|j'] Hlt; [lia|]. simpl. apply Hlast. lia.
      * destruct (decide (GoStrings.TrimSpace col = c)) as [<-|Hne].
        -- rewrite lookup_insert_eq in Hm. injection Hm as <-.
           left. exists 0%nat. split; [lia|]. split; [reflexivity|].
           intros [|j'] Hlt; [lia|]. simpl. intros Hj. apply Hnot.
           eapply list_elem_of_lookup_2. exact Hj.
        -- rewrite lookup_insert_ne in Hm by assumption.
           right. split; [|exact Hm].
           rewrite elem_of_cons. intros [Heq|Hin]; [congruence|contradiction].
    + intros [(j & -> & Hj & Hlast)|[Hnot Hm]].
      * destruct j as [|j].
        -- simpl in Hj. injection Hj as <-. right. split.
           ++ intros Hin. apply list_elem_of_lookup_1 in Hin as [j' Hj'].
              apply (Hlast (S j')); [lia|exact Hj'].
           ++ rewrite lookup_insert_eq. f_equal. lia.
        -- left. exists j. split; [lia|]. split; [exact Hj|].
           intros j' Hlt. apply (Hlast (S j')). lia.
      * right. rewrite elem_of_cons in Hnot. split; [tauto|].
        rewrite lookup_insert_ne; [exact Hm|]. intros Heq. apply Hnot.
        left. congruence.
Qed.

(** X6. The header decides by name, each name trimmed, and a name that
    comes twice counts at its last position: a name is in the column index
    with position [i] exactly when the header has it at [i] and nowhere after
    [i]. *)
Theorem header_last_position_wins (header : list string) (c : string)
    (i : nat) :
  buildColIndex 0 header ∅ !! c = Some i ↔
  columnNames header !! i = Some c
  ∧ ∀ j, (i < j)%nat → columnNames header !! j ≠ Some c.
Proof.
  rewrite buildColIndex_lookup. split.
  - intros [(j & -> & Hj & Hlast)|[_ Hm]]; [auto|].
    now rewrite lookup_empty in Hm.
  - intros [Hi Hlast]. left. exists i. auto.
Qed.

Lemma colIndex_missing header c :
  c ∉ columnNames header → buildColIndex 0 header ∅ !! c = None.
Proof.
  intros Hnot. destruct (buildColIndex 0 header ∅ !! c) as [i|] eqn:E;
    [|reflexivity].
  apply buildColIndex_lookup in E as [(j & _ & Hj & _)|[_ Hm]].
  - exfalso. apply Hnot. eapply list_elem_of_lookup_2. exact Hj.
  - now rewrite lookup_empty in Hm.
Qed.

Lemma rawCell_missing colIndex rec col :
  colIndex !! col = None → rawCell colIndex rec col = None.
Proof. unfold rawCell. now intros ->. Qed.

(** X7. A header without an [id] column, or without an [iata_code] column,
    loads to the empty store whatever the rows hold, and every lookup in it
    misses. *)
Theorem missing_column_empty_store `{GoLib} (header : list string)
    (rows : list (list string)) :
  ("id" ∉ columnNames header) ∨ ("iata_code" ∉ columnNames header) →
  LoadFromReader (Record_ header :: map Record_ rows)
  = inl {| byIATA := ∅ |}
  ∧ ∀ code, Store_LookupIATA (Some {| byIATA := ∅ |}) code = (None, false).
Proof.
  intros Hmiss. split.
  - rewrite LoadFromReader_records. do 2 f_equal.
    apply foldl_all_skipped. intros rec _. apply parseRow_None.
    destruct Hmiss as [Hid|Hcode].
    + left. unfold badId.
      now rewrite (rawCell_missing _ _ _ (colIndex_missing _ _ Hid)).
    + right. unfold normalizedIATA.
      now rewrite (rawCell_missing _ _ _ (colIndex_missing _ _ Hcode)).
  - intros code. unfold Store_LookupIATA. destruct code; [reflexivity|].
    simpl. now rewrite lookup_empty.
Qed.

Lemma missing_column_empty_store_witness :
  @LoadFromReader RefLib.lib
    (Record_ ["ident"; "iata_code"] :: map Record_ [["1"; "AAA"]])
  = inl {| byIATA := ∅ |}.
Proof.
  apply (@missing_column_empty_store RefLib.lib). left.
  change (columnNames ["ident"; "iata_code"]) with ["ident"; "iata_code"].
  rewrite !elem_of_cons, elem_of_nil.
  intros [E|[E|[]]]; discriminate E.
Defined.







Lemma LookupIATA_loaded `{GoLib} w g code :
  loadOnce g = true → loadErr g = None →
  LookupIATA w g code = (g, Store_LookupIATA (defaultStore g) code).
Proof.
  intros Hdone Herr. unfold LookupIATA.
  rewrite ensureDefaultStore_done by assumption. now rewrite Herr.
Qed.

Lemma lookups_loaded `{GoLib} g calls :
  loadOnce g = true → loadErr g = None →
  lookups g calls
  = (map (λ call, Store_LookupIATA (defaultStore g) call.2) calls, g).
Proof.
  intros Hdone Herr. induction calls as [|[w code] calls IH]; simpl;
    [reflexivity|].
  rewrite LookupIATA_loaded by assumption. now rewrite IH.
Qed.

(** X10. The default store is loaded once: when the first call of
    [LookupIATA] loads the file, that call and every later one answer from
    that store, whatever the environment variable and the files have
    become. *)
Theorem default_store_loaded_once `{GoLib} (w : World) (st : Store)
    (code : string) (calls : list (World * string)) :
  LoadFromFile w (defaultCSVPath w) = inl st →
  ∃ g,
    LookupIATA w initialGlobals code = (g, Store_LookupIATA (Some st) code)
    ∧ lookups g calls
      = (map (λ call, Store_LookupIATA (Some st) call.2) calls, g).
Proof.
  intros Hload. unfold LookupIATA, ensureDefaultStore. simpl.
  rewrite Hload. simpl. eexists. split; [reflexivity|].
  now rewrite lookups_loaded.
Qed.

(** X11. When a read after the header fails, the load returns that
    failure, the first one, under "read record": the rows read before it
    and whatever comes after it make no difference, and no store is
    returned. *)
Theorem first_failure_is_reported `{GoLib} (header : list string)
    (rows : list (list string)) (f : ReadFailure) (rest : Reader) :
  LoadFromReader (Record_ header :: map Record_ rows ++ Failure f :: rest)
  = inr (Errorf "read record" (ReadFailed f)).
Proof.
  simpl. generalize (∅ : gmap string Airport).
  induction rows as [|r rows IH]; intros m; simpl; [reflexivity|apply IH].
Qed.

Lemma NoDup_fmap_eq {A B} (f : A → B) (l : list A) a b :
  NoDup (f <$> l) → a ∈ l → b ∈ l → f a = f b → a = b.
Proof.
  induction l as [|x l IH]; intros Hnd Ha Hb Hf; [inversion Ha|].
  rewrite fmap_cons in Hnd. apply NoDup_cons in Hnd as [Hx Hnd].
  apply elem_of_cons in Ha as [->|Ha]; apply elem_of_cons in Hb as [->|Hb].
  - reflexivity.
  - exfalso. apply Hx. rewrite Hf. now apply list_elem_of_fmap_2.
  - exfalso. apply Hx. rewrite <- Hf. now apply list_elem_of_fmap_2.
  - now apply IH.
Qed.

Lemma firstAccepted_distinct `{GoLib} colIndex k rows a :
  NoDup (IATACode <$> acceptedAirports colIndex rows) →
  firstAccepted colIndex k rows = Some a
  ↔ a ∈ acceptedAirports colIndex rows ∧ IATACode a = k.
Proof.
  intros Hnd. unfold acceptedAirports in *. split.
  - intros Hf. apply firstAccepted_Some in Hf as (rec & Hin & Hp & Hk).
    split; [|exact Hk]. apply list_elem_of_omap. eauto.
  - intros [Ha <-]. apply list_elem_of_omap in Ha as (rec & Hin & Hp).
    destruct (firstAccepted_exists _ _ _ _ Hin Hp) as (b & Hb & Hcode).
    rewrite Hb. f_equal.
    apply firstAccepted_Some in Hb as (rec' & Hin' & Hp' & _).
    apply (NoDup_fmap_eq IATACode (omap (parseRow colIndex) rows));
      [assumption| | |assumption]; apply list_elem_of_omap; eauto.
Qed.

(** X12. The order of the rows matters for duplicate codes only: when the
    accepted rows have codes that differ from one another, the rows in any
    other order load to the same store. *)
Theorem distinct_codes_any_order `{GoLib} (header : list string)
    (rows rows' : list (list string)) :
  let colIndex := buildColIndex 0 header ∅ in
  rows ≡ₚ rows' →
  NoDup (IATACode <$> acceptedAirports colIndex rows) →
  LoadFromReader (Record_ header :: map Record_ rows)
  = LoadFromReader (Record_ header :: map Record_ rows').
Proof.
  intros colIndex Hperm Hnd. rewrite !LoadFromReader_records.
  do 2 f_equal. fold colIndex. apply map_eq. intros k.
  rewrite !foldl_lookup, !lookup_empty.
  assert (Hacc : acceptedAirports colIndex rows
                 ≡ₚ acceptedAirports colIndex rows')
    by (unfold acceptedAirports; now rewrite Hperm).
  assert (Hnd' : NoDup (IATACode <$> acceptedAirports colIndex rows'))
    by now rewrite <- Hacc.
  destruct (firstAccepted colIndex k rows) as [a|] eqn:E.
  - symmetry. apply firstAccepted_distinct; [assumption|].
    apply firstAccepted_distinct in E as [Ha Hk]; [|assumption].
    split; [now rewrite <- Hacc|exact Hk].
  - destruct (firstAccepted colIndex k rows') as [a|] eqn:E'; [|reflexivity].
    apply firstAccepted_distinct in E' as [Ha Hk]; [|assumption].
    rewrite <- Hacc in Ha.
    assert (Hsome : firstAccepted colIndex k rows = Some a)
      by (apply firstAccepted_distinct; auto).
    congruence.
Qed.

Lemma distinct_codes_any_order_witness :
  @LoadFromReader RefLib.lib
    (Record_ Sample.idCode :: map Record_ [["1"; "AAA"]; ["2"; "BBB"]])
  = @LoadFromReader RefLib.lib
      (Record_ Sample.idCode :: map Record_ [["2"; "BBB"]; ["1"; "AAA"]]).
Proof.
  apply (@distinct_codes_any_order RefLib.lib).
  - apply perm_swap.
  - change (NoDup ["AAA"; "BBB"]).
    apply NoDup_cons. split.
    + rewrite elem_of_cons, elem_of_nil. intros [E|[]]. discriminate E.
    + apply NoDup_singleton.
Defined.

Lemma get_padded colIndex rec pad col :
  Forall (λ cell, GoStrings.TrimSpace cell = EmptyString) pad →
  get colIndex (rec ++ pad) col = get colIndex rec col.
Proof.
  intros Hpad. unfold get. destruct (colIndex !! col) as [idx|]; [|reflexivity].
  destruct (rec !! idx) as [cell|] eqn:E.
  - now rewrite (lookup_app_l_Some _ _ _ _ E).
  - apply lookup_ge_None in E. rewrite lookup_app_r by assumption.
    destruct (pad !! (idx - length rec)%nat) as [cell|] eqn:Ep; [|reflexivity].
    exact (Forall_lookup_1 _ _ _ _ Hpad Ep).
Qed.

(** X13. A short row reads as if its missing cells were empty: cells that
    are empty or white space, added at the end of a row, change neither
    the airport made of the row nor whether the row is accepted. *)
Theorem trailing_blank_cells_ignored `{GoLib} (colIndex : gmap string nat)
    (rec pad : list string) :
  Forall (λ cell, GoStrings.TrimSpace cell = EmptyString) pad →
  parseRow colIndex (rec ++ pad) = parseRow colIndex rec.
Proof.
  intros Hpad. unfold parseRow. cbv zeta.
  now rewrite !(get_padded colIndex rec pad _ Hpad).
Qed.

Lemma trailing_blank_cells_ignored_witness :
  @parseRow RefLib.lib (buildColIndex 0 Sample.numHeader ∅)
    (["1"; "AAA"] ++ ["  "; ""])
  = @parseRow RefLib.lib (buildColIndex 0 Sample.numHeader ∅) ["1"; "AAA"].
Proof.
  apply (@trailing_blank_cells_ignored RefLib.lib).
  repeat (apply Forall_cons; split; [reflexivity|]). apply Forall_nil_2.
Defined.

Lemma default_store_loaded_once_witness :
  ∃ st g,
    @LoadFromReader RefLib.lib
      [Record_ Sample.nameHeader; Record_ Sample.rowJFK] = inl st
    ∧ LookupIATA FetchSample.oneFile initialGlobals "jfk"
      = (g, Store_LookupIATA (Some st) "jfk")
    ∧ lookups g [(Sample.noFiles, "JFK"); (Sample.noFiles, "LHR")]
      = ([Store_LookupIATA (Some st) "JFK";
          Store_LookupIATA (Some st) "LHR"], g).
Proof.
  pose proof (@LoadFromReader_records RefLib.lib Sample.nameHeader
                [Sample.rowJFK]) as Hl.
  eexists. 
  destruct (@default_store_loaded_once RefLib.lib FetchSample.oneFile _
              "jfk" [(Sample.noFiles, "JFK"); (Sample.noFiles, "LHR")] Hl)
    as (g & Hfirst & Hlater).
  exists g. split; [exact Hl|]. split; [exact Hfirst|exact Hlater].
Defined.

(** * The fetcher *)

Lemma append_tmp_ne (p : string) : p +:+ ".tmp" ≠ p.
Proof.
  induction p as [|c p IH]; simpl; [discriminate|].
  intros [= E]. now apply IH.
Qed.

(** What a [copyFile] that returns no error has done. *)
Lemma copyFile_ok fl fs src dst fs' :
  copyFile fl fs src dst = (fs', None) →
  faultFree fl
  ∧ ∃ content,
      fs' = <[dst := content]> (delete (dst +:+ ".tmp") fs)
      ∧ (src ≠ dst +:+ ".tmp" → fs !! src = Some content).
Proof.
  unfold copyFile, faultFree.
  destruct (openFails fl); [discriminate|].
  destruct (fs !! src) as [c0|] eqn:Hsrc; [|discriminate].
  destruct (createFails fl); [discriminate|].
  destruct (copyFails fl); [discriminate|].
  destruct (closeFails fl); [discriminate|].
  destruct (renameFails fl); [discriminate|].
  intros [= <-]. split; [tauto|]. eexists. split.
  - rewrite delete_insert_eq, delete_insert_eq. reflexivity.
  - intros Hne. rewrite lookup_insert_ne by congruence.
    now rewrite Hsrc.
Qed.

(** What a [copyFile] that returns an error has done: at most the
    temporary file is written. *)
Lemma copyFile_err fl fs src dst fs' e :
  copyFile fl fs src dst = (fs', Some e) →
  fs' = fs ∨ ∃ part, fs' = <[dst +:+ ".tmp" := part]> fs.
Proof.
  unfold copyFile.
  destruct (if openFails fl then None else fs !! src);
    [|intros [= <- _]; now left].
  destruct (createFails fl); [intros [= <- _]; now left|].
  destruct (copyFails fl) as [n|].
  { intros [= <- _]. right. eexists. apply insert_insert_eq. }
  destruct (closeFails fl).
  { intros [= <- _]. right. eexists. apply insert_insert_eq. }
  destruct (renameFails fl); [|discriminate].
  intros [= <- _]. right. eexists. apply insert_insert_eq.
Qed.

(** X14. [copyFile] returns no error exactly when the source has a file
    and no system call fails.  Then, unless the source is the temporary
    path itself, the target holds the content of the source, the temporary
    file is gone, and no other file has changed. *)
Theorem copyFile_success (fl : CopyFaults) (fs : gmap string string)
    (src dst : string) :
  (snd (copyFile fl fs src dst) = None
   ↔ faultFree fl ∧ is_Some (fs !! src))
  ∧ ∀ fs',
      copyFile fl fs src dst = (fs', None) →
      src ≠ dst +:+ ".tmp" →
      fs' !! dst = fs !! src
      ∧ fs' !! (dst +:+ ".tmp") = None
      ∧ ∀ p, p ≠ dst → p ≠ dst +:+ ".tmp" → fs' !! p = fs !! p.
Proof.
  split.
  - split.
    + destruct (copyFile fl fs src dst) as [fs' [e|]] eqn:E; [discriminate|].
      intros _. pose proof (copyFile_ok _ _ _ _ _ E) as [Hf _].
      split; [exact Hf|]. unfold copyFile in E.
      destruct Hf as (Ho & _). rewrite Ho in E.
      destruct (fs !! src); [eauto|discriminate].
    + intros [(Ho & Hc & Hcp & Hcl & Hr) [c Hsrc]].
      unfold copyFile. now rewrite Ho, Hsrc, Hc, Hcp, Hcl, Hr.
  - intros fs' E Hne.
    apply copyFile_ok in E as (_ & content & -> & Hsrc).
    rewrite (Hsrc Hne). split; [apply lookup_insert_eq|]. split.
    + rewrite lookup_insert_ne by (intros E; symmetry in E;
        now apply append_tmp_ne in E).
      apply lookup_delete_eq.
    + intros p Hp Ht. rewrite lookup_insert_ne by congruence.
      now rewrite lookup_delete_ne by congruence.
Qed.

(** X15. A [copyFile] that returns an error has not touched the target:
    every path but the temporary one, the target among them, holds what it
    held before. *)
Theorem copyFile_failure_keeps_target (fl : CopyFaults)
    (fs fs' : gmap string string) (src dst : string) (e : Wrapped) :
  copyFile fl fs src dst = (fs', Some e) →
  fs' !! dst = fs !! dst
  ∧ ∀ p, p ≠ dst +:+ ".tmp" → fs' !! p = fs !! p.
Proof.
  intros E. apply copyFile_err in E.
  assert (Hall : ∀ p, p ≠ dst +:+ ".tmp" → fs' !! p = fs !! p).
  { intros p Hp. destruct E as [->|[part ->]]; [reflexivity|].
    now rewrite lookup_insert_ne by congruence. }
  split; [|exact Hall]. apply Hall. intros E'. symmetry in E'.
  now apply append_tmp_ne in E'.
Qed.

Lemma copyFile_success_witness :
  fst (copyFile noFaults FetchSample.files "data/airports-latest.csv"
         "backup.csv") !! "backup.csv" = Some "old".
Proof.
  destruct (proj2 (copyFile_success noFaults FetchSample.files
                     "data/airports-latest.csv" "backup.csv")
              (fst (copyFile noFaults FetchSample.files
                      "data/airports-latest.csv" "backup.csv"))
              eq_refl) as (Hdst & _).
  - discriminate.
  - rewrite Hdst. reflexivity.
Defined.

Lemma copyFile_failure_keeps_target_witness :
  copyFile FetchSample.copyStops FetchSample.twoFiles "new.csv"
    "data/airports-latest.csv"
  = (<["data/airports-latest.csv.tmp" := "id,"]> FetchSample.twoFiles,
     Some ("copy", WriteError 3))
  ∧ fst (copyFile FetchSample.copyStops FetchSample.twoFiles "new.csv"
           "data/airports-latest.csv")
      !! "data/airports-latest.csv" = Some "old"
  ∧ fst (copyFile FetchSample.copyStops FetchSample.twoFiles "new.csv"
           "data/airports-latest.csv")
      !! "new.csv" = Some FetchSample.body.
Proof.
  assert (E : copyFile FetchSample.copyStops FetchSample.twoFiles "new.csv"
                "data/airports-latest.csv"
              = (<["data/airports-latest.csv.tmp" := "id,"]>
                   FetchSample.twoFiles,
                 Some ("copy", WriteError 3))).
    by reflexivity.
  destruct (copyFile_failure_keeps_target _ _ _ _ _ _ E) as [Hdst Hrest].
  split; [exact E|]. rewrite E. simpl. split.
  - rewrite Hdst. reflexivity.
  - rewrite (Hrest "new.csv"); [reflexivity|discriminate].
Defined.

(** The stages of [main]: it stops before the downloaded file has its
    name, with at most the temporary file written, or it goes on to
    [copyFile] with the downloaded file in place. *)
Lemma main_cases env outDir url fs fs' exit :
  main env outDir url fs = (fs', exit) →
  let fullPath := fullPathOf env outDir in
  let latestPath := latestPathOf env outDir in
  (∃ msg, exit = Fatal msg
          ∧ (fs' = fs ∨ ∃ part, fs' = <[fullPath +:+ ".tmp" := part]> fs))
  ∨ (∃ body e,
       httpGet env url = Response 200 body
       ∧ copyFile (latestFaults env)
           (<[fullPath := body]> (delete (fullPath +:+ ".tmp") fs))
           fullPath latestPath = (fs', e)
       ∧ match e with
         | None => exit = Returned
         | Some _ => ∃ msg, exit = Fatal msg
         end).
Proof.
  intros E fullPath latestPath. unfold main in E.
  fold fullPath latestPath in E.
  destruct (mkdirFails env).
  { injection E as <- <-. left. eexists. split; [reflexivity|now left]. }
  destruct (httpGet env url) as [|status body] eqn:Hget.
  { injection E as <- <-. left. eexists. split; [reflexivity|now left]. }
  destruct (Z.eqb_spec status 200) as [->|Hne]; simpl in E.
  2: { injection E as <- <-. left. eexists. split; [reflexivity|now left]. }
  destruct (tempCreateFails env).
  { injection E as <- <-. left. eexists. split; [reflexivity|now left]. }
  destruct (downloadFails env) as [n|].
  { injection E as <- <-. left. eexists. split; [reflexivity|].
    right. eexists. apply insert_insert_eq. }
  destruct (tempCloseFails env).
  { injection E as <- <-. left. eexists. split; [reflexivity|].
    right. eexists. apply insert_insert_eq. }
  destruct (tempRenameFails env).
  { injection E as <- <-. left. eexists. split; [reflexivity|].
    right. eexists. apply insert_insert_eq. }
  right. rewrite !delete_insert_eq in E.
  destruct (copyFile _ _ fullPath latestPath) as [fs4 [e|]] eqn:Hcopy;
    injection E as <- <-; exists body; eexists; (split; [reflexivity|]);
    (split; [exact Hcopy|]); [eexists|]; reflexivity.
Qed.

(** X16. When the output directory cannot be made, the download fails, or
    the status is not 200, [main] stops with a fatal message and has
    written no file. *)
Theorem no_download_no_change (env : FetchEnv) (outDir url : string)
    (fs : gmap string string) :
  mkdirFails env = true
  ∨ httpGet env url = GetFailed
  ∨ (∃ status body,
       httpGet env url = Response status body ∧ status ≠ 200%Z) →
  ∃ msg, main env outDir url fs = (fs, Fatal msg).
Proof.
  unfold main. intros [->|Hget]; [eauto|].
  destruct (mkdirFails env); [eauto|].
  destruct Hget as [->|(status & body & -> & Hne)]; [eauto|].
  destruct (Z.eqb_spec status 200); [contradiction|]. simpl. eauto.
Qed.

Lemma no_download_no_change_witness :
  ∃ msg,
    main {| pathJoin := λ dir name, dir +:+ "/" +:+ name;
            timestamp := "20240102-030405";
            httpGet := λ _, Response 404 "not found";
            mkdirFails := false; tempCreateFails := false;
            downloadFails := None; tempCloseFails := false;
            tempRenameFails := false; latestFaults := noFaults |}
      "data" "https://ourairports.com/airports.csv" FetchSample.files
    = (FetchSample.files, Fatal msg).
Proof.
  apply no_download_no_change. right. right.
  exists 404%Z, "not found". split; [reflexivity|discriminate].
Defined.

(** X17. When [main] returns, the download answered with status 200, and
    the file of the run and the latest file both hold the whole body that
    was received (the name of the run's file not being the temporary name
    of the latest one). *)
Theorem returned_files_hold_body (env : FetchEnv) (outDir url : string)
    (fs fs' : gmap string string) :
  let fullPath := fullPathOf env outDir in
  let latestPath := latestPathOf env outDir in
  main env outDir url fs = (fs', Returned) →
  fullPath ≠ latestPath +:+ ".tmp" →
  ∃ body,
    httpGet env url = Response 200 body
    ∧ fs' !! fullPath = Some body
    ∧ fs' !! latestPath = Some body.
Proof.
  intros fullPath latestPath E Hne.
  apply main_cases in E as [(msg & [=] & _)|(body & e & Hget & Hcopy & He)].
  fold fullPath latestPath in Hcopy.
  destruct e as [e|]; [destruct He as [msg [=]]|].
  apply copyFile_ok in Hcopy as (_ & content & -> & Hsrc).
  specialize (Hsrc Hne). rewrite lookup_insert_eq in Hsrc.
  injection Hsrc as <-.
  exists body. split; [exact Hget|]. split; [|apply lookup_insert_eq].
  destruct (decide (latestPath = fullPath)) as [->|Hl].
  - apply lookup_insert_eq.
  - rewrite lookup_insert_ne by assumption.
    rewrite lookup_delete_ne by congruence. apply lookup_insert_eq.
Qed.

Lemma returned_files_hold_body_witness :
  ∃ body,
    fst (main (FetchSample.env None) "data" "u" FetchSample.files)
      !! "data/airports-20240102-030405.csv" = Some body
    ∧ fst (main (FetchSample.env None) "data" "u" FetchSample.files)
        !! "data/airports-latest.csv" = Some body
    ∧ body = FetchSample.body.
Proof.
  destruct (returned_files_hold_body (FetchSample.env None) "data" "u"
              FetchSample.files
              (fst (main (FetchSample.env None) "data" "u"
                      FetchSample.files)) eq_refl)
    as (body & Hget & Hfull & Hlatest).
  - discriminate.
  - exists body. split; [exact Hfull|]. split; [exact Hlatest|].
    now injection Hget as <-.
Defined.

(** X18. A [main] that stops with a fatal message has left the latest
    file as it was: it is replaced by the whole download or not at all.
    The only paths it may have written are the run's file and the two
    temporary files.  (The latest file is not the run's file nor its
    temporary file.) *)
Theorem fatal_keeps_latest (env : FetchEnv) (outDir url : string)
    (fs fs' : gmap string string) (msg : string) :
  let fullPath := fullPathOf env outDir in
  let latestPath := latestPathOf env outDir in
  main env outDir url fs = (fs', Fatal msg) →
  latestPath ≠ fullPath →
  latestPath ≠ fullPath +:+ ".tmp" →
  fs' !! latestPath = fs !! latestPath
  ∧ ∀ p, p ≠ fullPath → p ≠ fullPath +:+ ".tmp" →
         p ≠ latestPath +:+ ".tmp" → fs' !! p = fs !! p.
Proof.
  intros fullPath latestPath E Hfull Htemp.
  assert (Hall : ∀ p, p ≠ fullPath → p ≠ fullPath +:+ ".tmp" →
                      p ≠ latestPath +:+ ".tmp" → fs' !! p = fs !! p).
  { intros p Hp1 Hp2 Hp3.
    apply main_cases in E
      as [(m & _ & [->|[part ->]])|(body & e & _ & Hcopy & He)].
    - reflexivity.
    - fold fullPath. now rewrite lookup_insert_ne by congruence.
    - fold fullPath latestPath in Hcopy.
      destruct e as [e|]; [|discriminate He].
      apply copyFile_err in Hcopy as [->|[part ->]].
      + rewrite lookup_insert_ne by congruence.
        now rewrite lookup_delete_ne by congruence.
      + rewrite lookup_insert_ne by congruence.
        rewrite lookup_insert_ne by congruence.
        now rewrite lookup_delete_ne by congruence. }
  split; [|exact Hall]. apply Hall; try assumption.
  intros E'. symmetry in E'. now apply append_tmp_ne in E'.
Qed.

Lemma fatal_keeps_latest_witness :
  fst (main (FetchSample.env (Some 3%nat)) "data" "u" FetchSample.files)
    !! "data/airports-latest.csv" = Some "old"
  ∧ fst (main (FetchSample.env (Some 3%nat)) "data" "u" FetchSample.files)
      !! "data/airports-latest.csv.tmp" = Some "id,".
Proof.
  split; [|reflexivity].
  destruct (fatal_keeps_latest (FetchSample.env (Some 3%nat)) "data" "u"
              FetchSample.files
              (fst (main (FetchSample.env (Some 3%nat)) "data" "u"
                      FetchSample.files))
              "failed to update" eq_refl) as [Hlatest _].
  - discriminate.
  - discriminate.
  - exact (eq_trans Hlatest eq_refl).
Defined.

(** * Rows by column name, and what a lookup returns *)

Ltac known_column :=
  unfold knownColumns;
  repeat first [apply list_elem_of_here | apply list_elem_of_further].

(** X19. The airport of a row depends on the cells by the name of their
    column only: two rows, each under its own header, that have the same
    trimmed cell for every column the loader reads give the same airport,
    or are both left out.  So the order of the columns does not matter and
    columns the loader does not read are ignored. *)
Theorem row_by_column_names `{GoLib} (colIndex colIndex' : gmap string nat)
    (rec rec' : list string) :
  (∀ col, col ∈ knownColumns →
          get colIndex rec col = get colIndex' rec' col) →
  parseRow colIndex rec = parseRow colIndex' rec'.
Proof.
  intros Hagree. unfold parseRow. cbv zeta.
  repeat match goal with
  | |- context [get colIndex rec ?c] =>
    rewrite (Hagree c) by known_column
  end.
  reflexivity.
Qed.

Lemma row_by_column_names_witness :
  @parseRow RefLib.lib (buildColIndex 0 ["iata_code"; "comment"; "id"] ∅)
    ["AAA"; "closed on Sundays"; "1"]
  = @parseRow RefLib.lib (buildColIndex 0 Sample.idCode ∅) ["1"; "AAA"].
Proof.
  apply (@row_by_column_names RefLib.lib).
  intros col Hcol. unfold knownColumns in Hcol.
  repeat (apply elem_of_cons in Hcol as [->|Hcol]; [reflexivity|]).
  now apply elem_of_nil in Hcol.
Defined.

(** X20. What a lookup finds in a loaded store is what was asked for: the
    airport found has the query in upper case as its code, and it is the
    airport of a row of the input. *)
Theorem lookup_finds_the_code `{GoLib} (header : list string)
    (rows : list (list string)) (st : Store) (code : string) (a : Airport) :
  LoadFromReader (Record_ header :: map Record_ rows) = inl st →
  Store_LookupIATA (Some st) code = (Some a, true) →
  IATACode a = toUpperASCII code
  ∧ ∃ rec, rec ∈ rows
           ∧ parseRow (buildColIndex 0 header ∅) rec = Some a.
Proof.
  intros Hl Hfind. unfold Store_LookupIATA in Hfind.
  destruct code as [|c code']; [discriminate|].
  destruct (byIATA st !! toUpperASCII (String c code')) as [b|] eqn:Hk;
    [|discriminate].
  injection Hfind as <-.
  rewrite LoadFromReader_records in Hl. injection Hl as <-.
  simpl in Hk. apply foldl_origin in Hk as [Hk|(rec & Hin & Hp & Hcode)].
  - now rewrite lookup_empty in Hk.
  - split; [exact Hcode|eauto].
Qed.

Lemma lookup_finds_the_code_witness :
  IATACode Sample.airportJFK = toUpperASCII "jFk".
Proof.
  pose proof (@LoadFromReader_records RefLib.lib Sample.nameHeader
                [Sample.rowJFK]) as Hl.
  exact (proj1 (@lookup_finds_the_code RefLib.lib Sample.nameHeader
                  [Sample.rowJFK] _ "jFk" Sample.airportJFK Hl eq_refl)).
Defined.

(** X21. The one source [copyFile] cannot copy is the path it takes as its
    temporary file: creating that file empties the source before it is
    read, so with every call succeeding it leaves an empty target and no
    source. *)
Theorem copyFile_from_its_temporary_path (fl : CopyFaults)
    (fs : gmap string string) (dst : string) :
  faultFree fl →
  is_Some (fs !! (dst +:+ ".tmp")) →
  copyFile fl fs (dst +:+ ".tmp") dst
  = (<[dst := EmptyString]> (delete (dst +:+ ".tmp") fs), None).
Proof.
  intros (Ho & Hc & Hcp & Hcl & Hr) [c Hsrc]. unfold copyFile.
  rewrite Ho, Hsrc, Hc, Hcp, Hcl, Hr. rewrite lookup_insert_eq. simpl.
  now rewrite !delete_insert_eq.
Qed.

Lemma copyFile_from_its_temporary_path_witness :
  copyFile noFaults {[ "a.csv.tmp" := "id,iata_code" ]} "a.csv.tmp" "a.csv"
  = (<[ "a.csv" := EmptyString ]>
       (delete "a.csv.tmp" {[ "a.csv.tmp" := "id,iata_code" ]}), None).
Proof.
  apply (copyFile_from_its_temporary_path noFaults
           {[ "a.csv.tmp" := "id,iata_code" ]} "a.csv").
  - repeat split.
  - eexists. apply lookup_singleton_eq.
Defined.
